(** * EPC reconciliation of the inventory scan screen

    A shallow embedding of [src/screens/InventoryScanScreen.tsx] (with the
    data types of [types.ts]) and the properties of its scan session:
    classification of looked-up EPCs, the append of a scanned batch, the
    removal of a record, the three display buckets and the confirmed count.

    Arrays are lists, [new Set(...)] used for membership is a [gset string],
    a spread set is an insertion-ordered list, an awaited lookup is a
    [Promise] that either resolves or rejects, and the component's [useState]
    cells are the fields of one [State] record threaded through the handlers.
    A callback made by [useCallback] reads the records of the render that
    made it: these captured records are an argument of its own, apart from
    the state the callback runs on. *)

From stdpp Require Import base decidable option list strings pretty gmap sets.

Local Open Scope string_scope.
Local Open Scope list_scope.

(** ** Data model ([types.ts]) *)

Record AssetInfo := mkAssetInfo {
  assetId : string;
  assetType : string;
  assetName : string
}.

Record InventoryItem := mkInventoryItem {
  item_assetId : string;
  item_assetType : string;
  item_assetName : string;
  quantityRequired : Z;
  quantityScanned : Z;
  expectedEpcs : list string
}.

(** [ScannedInventoryEPC.status]: 'valid' | 'surplus' | 'error_not_found'. *)
Inductive Status := status_valid | status_surplus | status_error_not_found.

Record ScannedInventoryEPC := mkScanned {
  epc : string;
  status : Status;
  assetInfo : option AssetInfo
}.

(** [UIStatus] of the screen. *)
Inductive UIStatus :=
  | valid
  | invalid_duplicate
  | invalid_wrong_asset
  | invalid_surplus
  | invalid_not_found.

(** [interface ScannedEpcUI extends ScannedInventoryEPC { uiStatus }]: the
    inherited fields are reached through the coercion. *)
Record ScannedEpcUI := mkScannedUI {
  inherited :> ScannedInventoryEPC;
  uiStatus : UIStatus
}.

Global Instance AssetInfo_eq_dec : EqDecision AssetInfo.
Proof. solve_decision. Defined.
Global Instance Status_eq_dec : EqDecision Status.
Proof. solve_decision. Defined.
Global Instance ScannedInventoryEPC_eq_dec : EqDecision ScannedInventoryEPC.
Proof. solve_decision. Defined.
Global Instance UIStatus_eq_dec : EqDecision UIStatus.
Proof. solve_decision. Defined.
Global Instance ScannedEpcUI_eq_dec : EqDecision ScannedEpcUI.
Proof. solve_decision. Defined.

(** ** Component state *)

Inductive Tab := tab_valid | tab_surplus | tab_error.

Inductive PopupType := confirm_submit.

Record PopupInfo := mkPopupInfo {
  isVisible : bool;
  popupType : option PopupType
}.

Record State := mkState {
  activeTab : Tab;
  scannedEPCs : list ScannedEpcUI;
  isProcessing : bool;
  swipedInvalidEpc : option string;
  popupInfo : PopupInfo
}.

Definition setActiveTab (t : Tab) (st : State) : State :=
  mkState t (scannedEPCs st) (isProcessing st) (swipedInvalidEpc st) (popupInfo st).
Definition setScannedEPCs (f : list ScannedEpcUI → list ScannedEpcUI) (st : State) : State :=
  mkState (activeTab st) (f (scannedEPCs st)) (isProcessing st) (swipedInvalidEpc st) (popupInfo st).
Definition setIsProcessing (b : bool) (st : State) : State :=
  mkState (activeTab st) (scannedEPCs st) b (swipedInvalidEpc st) (popupInfo st).
Definition setSwipedInvalidEpc (f : option string → option string) (st : State) : State :=
  mkState (activeTab st) (scannedEPCs st) (isProcessing st) (f (swipedInvalidEpc st)) (popupInfo st).
Definition setPopupInfo (p : PopupInfo) (st : State) : State :=
  mkState (activeTab st) (scannedEPCs st) (isProcessing st) (swipedInvalidEpc st) p.

(** The [useState] initial values of lines 101-105. *)
Definition initialState : State :=
  mkState tab_valid [] false None (mkPopupInfo false None).

(** ** Promises and JS sets *)

(** An awaited promise: it resolves with a value or rejects with a reason. *)
Inductive Promise (A : Type) :=
  | Resolved (a : A)
  | Rejected (reason : string).
Arguments Resolved {A} a.
Arguments Rejected {A} reason.

(** [[...new Set(l)]]: the elements of [l] in order of first occurrence.
    [seen] holds the elements already inserted. *)
Fixpoint spreadSetFrom (seen : gset string) (l : list string) : list string :=
  match l with
  | [] => []
  | x :: l' =>
      if decide (x ∈ seen) then spreadSetFrom seen l'
      else x :: spreadSetFrom ({[x]} ∪ seen) l'
  end.

Definition spreadSet (l : list string) : list string := spreadSetFrom ∅ l.

(** [scans.map(s => s.epc)]. *)
Definition epcsOf (scans : list ScannedEpcUI) : list string :=
  (λ s : ScannedEpcUI, epc s) <$> scans.

(** ** The memoised buckets (lines 107-109) *)

Definition validScans (st : State) : list ScannedEpcUI :=
  filter (λ s : ScannedEpcUI, uiStatus s = valid) (scannedEPCs st).
Definition surplusScans (st : State) : list ScannedEpcUI :=
  filter (λ s, uiStatus s = invalid_surplus ∨ uiStatus s = invalid_wrong_asset)
         (scannedEPCs st).
Definition errorScans (st : State) : list ScannedEpcUI :=
  filter (λ s, uiStatus s = invalid_not_found) (scannedEPCs st).

(** ** The handlers *)

(** What one call of [handleScanResults] did: the state it leaves, the EPCs
    it sent to the registry, in order, and how its promise settled.  The
    source's promise carries no value; the model keeps the local [newScans]
    in it so that the records a call added can be named. *)
Record Run := mkRun {
  final : State;
  lookups : list string;
  settled : Promise (list ScannedEpcUI)
}.

Section Screen.

(** The props of the screen. *)
Variable item : InventoryItem.
Variable taskId : string.

(** [checkEpcInInventory] of [services/api], the registry lookup: its
    implementation is outside the screen, so it is a parameter here. *)
Variable checkEpcInInventory : string → string → Promise ScannedInventoryEPC.

(** Lines 136-146: the status given to a lookup result.
    [result.assetInfo?.assetId] is [undefined] without an [assetInfo], and
    [undefined !== item.assetId] holds for every string. *)
Definition uiStatusOf (result : ScannedInventoryEPC) : UIStatus :=
  if decide (status result = status_error_not_found) then invalid_not_found
  else if decide (status result = status_surplus) then invalid_surplus
  else if decide (assetId <$> assetInfo result ≠ Some (item_assetId item))
       then invalid_wrong_asset
  else valid.

(** Lines 129-149: the loop over [uniqueEpcs], with the mutable
    [currentEpcs] and [newScans] as accumulators and [calls] the lookups
    issued so far.  In [{ epc, ...result, uiStatus }] the spread of
    [result] comes after [epc], so the stored [epc] is the one of
    [result]; a rejected lookup leaves the loop and the function. *)
Fixpoint scanLoop (uniqueEpcs : list string) (currentEpcs : gset string)
    (newScans : list ScannedEpcUI) (calls : list string)
    : list string * Promise (list ScannedEpcUI) :=
  match uniqueEpcs with
  | [] => (calls, Resolved newScans)
  | epc :: rest =>
      if decide (epc ∈ currentEpcs) then
        scanLoop rest currentEpcs newScans calls
      else
        match checkEpcInInventory epc taskId with
        | Rejected reason => (calls ++ [epc], Rejected reason)
        | Resolved result =>
            scanLoop rest ({[epc]} ∪ currentEpcs)
                     (newScans ++ [mkScannedUI result (uiStatusOf result)])
                     (calls ++ [epc])
        end
  end.

(** Lines 119-125. *)
Definition mockNewEpcs (epcs : list string) : list string :=
  epcs ++ take 2 (expectedEpcs item)
       ++ ["EPC-E5-001"; "EPC-A1-001"; "UNKNOWN-EPC-123"].

(** Lines 111-165.  [captured] is the [scannedEPCs] of the closure: the
    records of the render that created the callback (l.116, dependencies
    l.165), which the duplicate check reads.  [st] is the state the call
    runs on: the functional update of l.152 appends to its records
    ([prevScans]).  The lookups of one call are taken with no other update
    of the state in between. *)
Definition handleScanResults (captured : list ScannedEpcUI) (epcs : list string)
    (st : State) : Run :=
  if decide (length epcs = 0) then mkRun st [] (Resolved [])
  else
    let st := setIsProcessing true st in
    let currentEpcs : gset string := list_to_set (epcsOf captured) in
    let uniqueEpcs := spreadSet (mockNewEpcs epcs) in
    match scanLoop uniqueEpcs currentEpcs [] [] with
    | (calls, Rejected reason) => mkRun st calls (Rejected reason)
    | (calls, Resolved newScans) =>
        let st :=
          if decide (0 < length newScans)
          then setScannedEPCs (λ prevScans, prevScans ++ newScans) st
          else st in
        let hasError :=
          existsb (λ s, bool_decide (uiStatus s = invalid_not_found)) newScans in
        let hasSurplus :=
          existsb (λ s, bool_decide (uiStatus s = invalid_surplus
                                     ∨ uiStatus s = invalid_wrong_asset)) newScans in
        let st :=
          if hasError then setActiveTab tab_error st
          else if hasSurplus then setActiveTab tab_surplus st
          else st in
        mkRun (setIsProcessing false st) calls (Resolved newScans)
    end.

(** Lines 167-169: the [onScanComplete] handed to the radar screen is the
    handler of the render in which Scan is pressed; it has captured the
    records of that render. *)
Definition handleScan (rendered : State) : list string → State → Run :=
  handleScanResults (scannedEPCs rendered).

(** Lines 171-173. *)
Definition handleConfirm (st : State) : State :=
  setPopupInfo (mkPopupInfo true (Some confirm_submit)) st.

(** Line 224. *)
Definition closePopup (st : State) : State :=
  setPopupInfo (mkPopupInfo false None) st.

(** [validScans.length], the count the popup shows and confirms
    (lines 230 and 233). *)
Definition confirmedCount (st : State) : nat := length (validScans st).

(** Lines 232-235: the arguments [onConfirmScan] is called with. *)
Definition onConfirm (st : State) : string * string * nat :=
  (taskId, item_assetId item, confirmedCount st).

End Screen.

(** Lines 175-178. *)
Definition handleDeleteInvalidScan (epcToDelete : string) (st : State) : State :=
  setSwipedInvalidEpc (λ _, None)
    (setScannedEPCs (λ prev, filter (λ s : ScannedEpcUI, epc s ≠ epcToDelete) prev) st).

(** ** What the active list offers (lines 32-69, 180-220) *)

(** Line 187. *)
Definition isSwiped (isInvalidList : bool) (st : State) (scan : ScannedEpcUI) : bool :=
  isInvalidList && bool_decide (swipedInvalidEpc st = Some (epc scan)).

(** Line 188. *)
Definition onSwipe (isInvalidList : bool) (scan : ScannedEpcUI) (st : State) : State :=
  if isInvalidList
  then setSwipedInvalidEpc
         (λ prev, if decide (prev = Some (epc scan)) then None else Some (epc scan)) st
  else st.

(** A rendered row: an [EpcListItem] with its [isInvalid] and [isSwiped]
    props, or a [SurplusEpcListItem], which has no delete button. *)
Inductive Row :=
  | EpcListItem (scan : ScannedEpcUI) (isInvalid : bool) (swiped : bool)
  | SurplusEpcListItem (scan : ScannedEpcUI).

Definition EpcList (st : State) (epcs : list ScannedEpcUI) (isInvalidList : bool)
    : list Row :=
  (λ scan, EpcListItem scan isInvalidList (isSwiped isInvalidList st scan)) <$> epcs.

Definition renderActiveList (st : State) : list Row :=
  match activeTab st with
  | tab_valid => EpcList st (validScans st) false
  | tab_surplus => SurplusEpcListItem <$> surplusScans st
  | tab_error => EpcList st (errorScans st) true
  end.

(** Line 48: the delete button takes pointer events only when swiped. *)
Definition deleteEnabled (r : Row) : option string :=
  match r with
  | EpcListItem scan _ true => Some (epc scan)
  | EpcListItem _ _ false => None
  | SurplusEpcListItem _ => None
  end.

(** ** What the rows, the tab counter and the popup show *)

(** [a || d] on a string that may be [undefined]: the empty string is falsy
    too. *)
Definition orElse (a : option string) (d : string) : string :=
  match a with
  | Some s => if decide (s = "") then d else s
  | None => d
  end.

(** [a ?? d]: only [undefined] gives [d]. *)
Definition nullish (a : option string) (d : string) : string :=
  match a with
  | Some s => s
  | None => d
  end.

(** Lines 22-30. *)
Definition getStatusMessage (scan : ScannedEpcUI) : string :=
  match uiStatus scan with
  | invalid_duplicate => "Duplicate EPC in this session."
  | invalid_wrong_asset =>
      String.append "Tài sản sai. Đã quét: "
                    (orElse (assetName <$> assetInfo scan) "Unknown")
  | invalid_surplus => "Tài sản thừa không có trong phiếu."
  | invalid_not_found => "EPC không tìm thấy trong hệ thống."
  | valid => epc scan
  end.

(** Lines 84-87: the params the locate button of a surplus row navigates to
    the asset finder with. *)
Definition locateParams (scan : ScannedEpcUI) : string * string :=
  (epc scan, nullish (assetName <$> assetInfo scan) "Unknown Asset").

(** The record a row is drawn for. *)
Definition rowScan (r : Row) : ScannedEpcUI :=
  match r with
  | EpcListItem scan _ _ => scan
  | SurplusEpcListItem scan => scan
  end.

(** Lines 65 and 80: the status line under the EPC of a row.  An
    [EpcListItem] has one only when [isInvalid]. *)
Definition rowMessage (r : Row) : option string :=
  match r with
  | EpcListItem scan true _ => Some (getStatusMessage scan)
  | EpcListItem _ false _ => None
  | SurplusEpcListItem scan => Some (getStatusMessage scan)
  end.

(** Lines 243-249. *)
Definition getTabCount (tab : Tab) (st : State) : nat :=
  match tab with
  | tab_valid => length (validScans st)
  | tab_surplus => length (surplusScans st)
  | tab_error => length (errorScans st)
  end.

(** The props of the rendered [Popup] that depend on the state; [onClose] is
    [closePopup] and [confirmed] holds the arguments [onConfirmScan] gets
    when the popup is confirmed. *)
Record PopupProps := mkPopupProps {
  title : string;
  message : string;
  confirmed : string * string * nat;
  confirmButtonText : string;
  cancelButtonText : string
}.

(** Lines 222-241; a number in a template literal is printed in decimal. *)
Definition renderPopup (item : InventoryItem) (taskId : string) (st : State)
    : option PopupProps :=
  if negb (isVisible (popupInfo st)) then None
  else
    match popupType (popupInfo st) with
    | Some confirm_submit =>
        Some (mkPopupProps
                "Xác nhận kiểm kê"
                (String.append "Bạn có chắc chắn muốn xác nhận "
                   (String.append (pretty (length (validScans st)))
                                  " tài sản đã quét?"))
                (onConfirm item taskId st)
                "Xác nhận"
                "Hủy")
    | None => None
    end.

(** ** The screen as a transition system *)

(** What can happen to a mounted screen: a radar scan completes with a batch
    (against the registry as it is at that moment, through a handler that
    has captured some list of records), a record is deleted, a tab is
    pressed, a row is tapped, the confirm popup is opened or closed. *)
Inductive Action :=
  | ScanComplete (checkEpcInInventory : string → string → Promise ScannedInventoryEPC)
                 (captured : list ScannedEpcUI) (epcs : list string)
  | DeleteInvalidScan (epcToDelete : string)
  | PressTab (t : Tab)
  | TapRow (isInvalidList : bool) (scan : ScannedEpcUI)
  | PressConfirm
  | ClosePopup.

Definition step (item : InventoryItem) (taskId : string) (a : Action) (st : State)
    : State :=
  match a with
  | ScanComplete check captured epcs =>
      final (handleScanResults item taskId check captured epcs st)
  | DeleteInvalidScan e => handleDeleteInvalidScan e st
  | PressTab t => setActiveTab t st
  | TapRow isInvalidList scan => onSwipe isInvalidList scan st
  | PressConfirm => handleConfirm st
  | ClosePopup => closePopup st
  end.

Inductive reachable (item : InventoryItem) (taskId : string) : State → Prop :=
  | reachable_initial : reachable item taskId initialState
  | reachable_step a st :
      reachable item taskId st → reachable item taskId (step item taskId a st).

(** The registry answers about the EPC it was asked about. *)
Definition echoes (check : string → string → Promise ScannedInventoryEPC)
    (taskId : string) : Prop :=
  ∀ e result, check e taskId = Resolved result → epc result = e.

(** The state after a sequence of actions, the first of the list first. *)
Definition run (item : InventoryItem) (taskId : string) (actions : list Action)
    (st : State) : State :=
  foldl (λ st a, step item taskId a st) st actions.

(** The handler knows every EPC of the session: the records it captured
    hold each EPC recorded in [st].  The handler of the current render is
    such a handler, and stays one while records are only deleted. *)
Definition knowsSession (captured : list ScannedEpcUI) (st : State) : Prop :=
  ∀ e, e ∈ epcsOf (scannedEPCs st) → e ∈ epcsOf captured.

(** A scan completion that comes through a handler that knows the session,
    with a registry that answers about the EPC asked. *)
Definition timely (taskId : string) (a : Action) (st : State) : Prop :=
  match a with
  | ScanComplete check captured _ => echoes check taskId ∧ knowsSession captured st
  | _ => True
  end.

(** Every scan completion of the sequence is timely in the state it meets. *)
Fixpoint allTimely (item : InventoryItem) (taskId : string)
    (actions : list Action) (st : State) : Prop :=
  match actions with
  | [] => True
  | a :: rest => timely taskId a st ∧ allTimely item taskId rest (step item taskId a st)
  end.

(** [s] is the record the loop builds from the lookup of [e]. *)
Definition looked (item : InventoryItem) (taskId : string)
    (check : string → string → Promise ScannedInventoryEPC)
    (e : string) (s : ScannedEpcUI) : Prop :=
  ∃ result, check e taskId = Resolved result
            ∧ s = mkScannedUI result (uiStatusOf item result).

(** ** A small registry and task to run the handlers on *)

Module Demo.

Definition laptop : AssetInfo := mkAssetInfo "asset-1" "IT" "Laptop".
Definition desk : AssetInfo := mkAssetInfo "asset-2" "Furniture" "Desk".
Definition chair : AssetInfo := mkAssetInfo "asset-5" "Furniture" "Chair".

Definition item : InventoryItem :=
  mkInventoryItem "asset-1" "IT" "Laptop" 2 0 ["A"; "B"].

Definition taskId : string := "TASK-1".

(** A and B belong to the laptop, EPC-A1-001 to the desk, EPC-E5-001 is
    counted in another task, X is found without asset data, the lookup of
    DOWN fails, everything else is unknown. *)
Definition registry (e _ : string) : Promise ScannedInventoryEPC :=
  if decide (e = "A" ∨ e = "B") then Resolved (mkScanned e status_valid (Some laptop))
  else if decide (e = "EPC-A1-001") then Resolved (mkScanned e status_valid (Some desk))
  else if decide (e = "EPC-E5-001") then Resolved (mkScanned e status_surplus (Some chair))
  else if decide (e = "X") then Resolved (mkScanned e status_valid None)
  else if decide (e = "DOWN") then Rejected "network error"
  else Resolved (mkScanned e status_error_not_found None).

Definition afterA : State :=
  final (handleScanResults item taskId registry (scannedEPCs initialState)
           ["A"] initialState).

(** The records a later scan of X and C adds to [afterA]. *)
Definition addedXC : list ScannedEpcUI :=
  [ mkScannedUI (mkScanned "X" status_valid None) invalid_wrong_asset;
    mkScannedUI (mkScanned "C" status_error_not_found None) invalid_not_found ].

(** The record of the unknown EPC in [afterA], and [afterA] once its row in
    the error tab has been tapped. *)
Definition unknownScan : ScannedEpcUI :=
  mkScannedUI (mkScanned "UNKNOWN-EPC-123" status_error_not_found None)
              invalid_not_found.

Definition tapped : State := onSwipe true unknownScan afterA.

(** The registry once UNKNOWN-EPC-123 has been registered to the laptop. *)
Definition laterRegistry (e t : string) : Promise ScannedInventoryEPC :=
  if decide (e = "UNKNOWN-EPC-123")
  then Resolved (mkScanned e status_valid (Some laptop))
  else registry e t.

(** [afterA] once the record of the unknown EPC has been deleted. *)
Definition deleted : State := handleDeleteInvalidScan "UNKNOWN-EPC-123" tapped.

(** A visit of the screen: scan, tap the unknown EPC, delete it, open and
    close the popup, scan again through the handler made after the
    deletion. *)
Definition visit : list Action :=
  [ ScanComplete registry [] ["A"; "A"];
    TapRow true unknownScan;
    DeleteInvalidScan "UNKNOWN-EPC-123";
    PressConfirm;
    ClosePopup;
    ScanComplete laterRegistry (scannedEPCs deleted) ["UNKNOWN-EPC-123"; "X"];
    PressTab tab_valid ].

(** The handler made when the screen showed [afterA] completes a scan of X
    and C, and then, without a new handler being handed over, completes the
    same scan once more. *)
Definition afterXC : State :=
  final (handleScanResults item taskId registry (scannedEPCs afterA)
           ["X"; "C"] afterA).

Definition afterXCagain : State :=
  final (handleScanResults item taskId registry (scannedEPCs afterA)
           ["X"; "C"] afterXC).

(** A registry that answers every lookup with the record of A, and the
    state after a scan of C against it, through the handler of [afterA]. *)
Definition mislabelling (_ _ : string) : Promise ScannedInventoryEPC :=
  Resolved (mkScanned "A" status_valid (Some laptop)).

Definition afterMislabelled : State :=
  final (handleScan item taskId mislabelling afterA ["C"] afterA).

End Demo.

(** * Properties *)

(** Closed decidable facts about the demo data are settled by evaluation. *)
Ltac by_computation := apply (bool_decide_unpack _); vm_compute; exact I.

(** ** Spread sets *)

Example spreadSet_first_occurrences :
  spreadSet ["A"; "B"; "A"; "C"; "B"] = ["A"; "B"; "C"].
Proof. reflexivity. Qed.

Example mockNewEpcs_demo :
  spreadSet (mockNewEpcs Demo.item ["B"; "B"])
  = ["B"; "A"; "EPC-E5-001"; "EPC-A1-001"; "UNKNOWN-EPC-123"].
Proof. reflexivity. Qed.

Lemma elem_of_spreadSetFrom seen l x :
  x ∈ spreadSetFrom seen l ↔ x ∈ l ∧ x ∉ seen.
Proof.
  revert seen. induction l as [|y l IH]; intros seen; simpl.
  - rewrite elem_of_nil. tauto.
  - case_decide as Hy; rewrite ?elem_of_cons, IH, ?elem_of_cons.
    + split; [tauto|]. intros [[->|Hx] Hn]; [done|tauto].
    + rewrite elem_of_union, elem_of_singleton. split.
      * intros [->|[Hx Hn]]; [tauto|]. split; [tauto|]. intros ?. apply Hn. tauto.
      * intros [[->|Hx] Hn]; [tauto|].
        destruct (decide (x = y)) as [->|Hne]; [tauto|]. right. split; [done|].
        intros [?|?]; done.
Qed.

Lemma elem_of_spreadSet l x : x ∈ spreadSet l ↔ x ∈ l.
Proof.
  unfold spreadSet. rewrite elem_of_spreadSetFrom. split; [tauto|].
  intros Hx. split; [done|]. apply not_elem_of_empty.
Qed.

Lemma NoDup_spreadSetFrom seen l : NoDup (spreadSetFrom seen l).
Proof.
  revert seen. induction l as [|y l IH]; intros seen; simpl; [constructor|].
  case_decide; [apply IH|]. constructor; [|apply IH].
  rewrite elem_of_spreadSetFrom, elem_of_union, elem_of_singleton. tauto.
Qed.

Lemma spreadSetFrom_seen seen x l :
  x ∈ seen → spreadSetFrom seen (x :: l) = spreadSetFrom seen l.
Proof. intros Hx. simpl. by rewrite decide_True. Qed.

Lemma spreadSetFrom_fresh seen x l :
  x ∉ seen → spreadSetFrom seen (x :: l) = x :: spreadSetFrom ({[x]} ∪ seen) l.
Proof. intros Hx. simpl. by rewrite decide_False. Qed.

(** ** State setters leave the other cells alone *)

Lemma setIsProcessing_undo st :
  isProcessing st = false → setIsProcessing false (setIsProcessing true st) = st.
Proof. destruct st; simpl; by intros ->. Qed.

(** ** The scan loop *)

Section Loop.

Variable item : InventoryItem.
Variable taskId : string.
Variable check : string → string → Promise ScannedInventoryEPC.

Lemma scanLoop_resolved l : ∀ cur ns calls calls' out,
  scanLoop item taskId check l cur ns calls = (calls', Resolved out) →
  calls' = calls ++ spreadSetFrom cur l
  ∧ ∃ rs, out = ns ++ rs ∧ Forall2 (looked item taskId check) (spreadSetFrom cur l) rs.
Proof.
  induction l as [|e l IH]; intros cur ns calls calls' out; simpl.
  - intros [= <- <-]. rewrite app_nil_r. split; [done|].
    exists []. by rewrite app_nil_r.
  - case_decide as Hin; [apply IH|].
    destruct (check e taskId) as [result|reason] eqn:E; [|done].
    intros (-> & rs & -> & HF)%IH. rewrite <- !app_assoc. split; [done|].
    exists (mkScannedUI result (uiStatusOf item result) :: rs).
    split; [done|]. constructor; [by exists result | done].
Qed.

Lemma scanLoop_calls l : ∀ cur ns calls,
  ∃ pre, (scanLoop item taskId check l cur ns calls).1 = calls ++ pre
         ∧ pre `prefix_of` spreadSetFrom cur l.
Proof.
  induction l as [|e l IH]; intros cur ns calls; simpl.
  - exists []. by rewrite app_nil_r.
  - case_decide as Hin; [apply IH|].
    destruct (check e taskId) as [result|reason] eqn:E.
    + destruct (IH ({[e]} ∪ cur) (ns ++ [mkScannedUI result (uiStatusOf item result)])
                  (calls ++ [e])) as (pre & -> & Hpre).
      exists (e :: pre). rewrite <- app_assoc. split; [done|].
      by apply prefix_cons.
    + exists [e]. split; [done|]. by apply prefix_cons, prefix_nil.
Qed.

Lemma scanLoop_rejected l : ∀ cur ns calls calls' reason,
  scanLoop item taskId check l cur ns calls = (calls', Rejected reason) →
  ∃ e, last calls' = Some e ∧ check e taskId = Rejected reason.
Proof.
  induction l as [|e l IH]; intros cur ns calls calls' reason; simpl; [done|].
  case_decide as Hin; [apply IH|].
  destruct (check e taskId) as [result|reason'] eqn:E; [apply IH|].
  intros [= <- <-]. exists e. by rewrite last_snoc.
Qed.

Lemma scanLoop_all_seen l cur ns calls :
  (∀ e, e ∈ l → e ∈ cur) →
  scanLoop item taskId check l cur ns calls = (calls, Resolved ns).
Proof.
  induction l as [|e l IH]; intros Hall; simpl; [done|].
  rewrite decide_True by (apply Hall; left). apply IH.
  intros e' He'. apply Hall. by right.
Qed.

Lemma looked_not_duplicate e s : looked item taskId check e s → uiStatus s ≠ invalid_duplicate.
Proof.
  intros (result & _ & ->). simpl. unfold uiStatusOf.
  repeat case_decide; done.
Qed.

Lemma looked_epcs l rs :
  echoes check taskId → Forall2 (looked item taskId check) l rs → epcsOf rs = l.
Proof.
  intros Hecho. induction 1 as [|e s l rs (result & E & ->) _ IH]; [done|].
  unfold epcsOf in *. rewrite fmap_cons, IH. simpl. f_equal. by apply Hecho.
Qed.

(** *** What a completed call did *)

Lemma handleScanResults_lookups captured epcs st :
  ∃ pre, lookups (handleScanResults item taskId check captured epcs st) = pre
    ∧ pre `prefix_of` spreadSetFrom (list_to_set (epcsOf captured))
                                    (spreadSet (mockNewEpcs item epcs)).
Proof.
  unfold handleScanResults. case_decide as Hlen.
  - exists []. split; [done|]. apply prefix_nil.
  - simpl.
    destruct (scanLoop_calls (spreadSet (mockNewEpcs item epcs))
                (list_to_set (epcsOf captured)) [] []) as (pre & E & Hpre).
    exists pre. split; [|done].
    destruct (scanLoop _ _ _ _ _ _ _) as [calls [out|reason]]; simpl in *; by subst.
Qed.

Lemma handleScanResults_resolved captured epcs st added :
  settled (handleScanResults item taskId check captured epcs st) = Resolved added →
  scannedEPCs (final (handleScanResults item taskId check captured epcs st))
    = scannedEPCs st ++ added
  ∧ Forall2 (looked item taskId check)
            (lookups (handleScanResults item taskId check captured epcs st)) added
  ∧ (epcs ≠ [] →
     lookups (handleScanResults item taskId check captured epcs st)
     = spreadSetFrom (list_to_set (epcsOf captured))
                     (spreadSet (mockNewEpcs item epcs))
     ∧ isProcessing (final (handleScanResults item taskId check captured epcs st)) = false).
Proof.
  unfold handleScanResults. case_decide as Hlen.
  - simpl. intros [= <-]. rewrite app_nil_r.
    split; [done|]. split; [apply Forall2_nil_2|].
    intros Hne. by destruct epcs.
  - simpl.
    destruct (scanLoop _ _ _ _ _ _ _) as [calls [out|reason]] eqn:E;
      simpl; [|done].
    intros [= ->]. apply scanLoop_resolved in E as (-> & rs & -> & HF).
    simpl in *. split; [|by split].
    assert (scannedEPCs
              (if decide (0 < length rs)
               then setScannedEPCs (λ prevScans, prevScans ++ rs)
                      (setIsProcessing true st)
               else setIsProcessing true st) = scannedEPCs st ++ rs) as Hs.
    { case_decide as Hrs; [done|]. destruct rs; simpl in *; [|lia].
      by rewrite app_nil_r. }
    by repeat destruct (existsb _ _).
Qed.

Lemma handleScanResults_rejected captured epcs st reason :
  settled (handleScanResults item taskId check captured epcs st) = Rejected reason →
  final (handleScanResults item taskId check captured epcs st) = setIsProcessing true st
  ∧ ∃ e, last (lookups (handleScanResults item taskId check captured epcs st)) = Some e
         ∧ check e taskId = Rejected reason.
Proof.
  unfold handleScanResults. case_decide as Hlen; [done|]. simpl.
  destruct (scanLoop _ _ _ _ _ _ _) as [calls [out|reason']] eqn:E;
    simpl; [done|].
  intros [= ->]. split; [done|]. by apply scanLoop_rejected in E.
Qed.

Lemma handleScanResults_session captured epcs st :
  ∃ added, scannedEPCs (final (handleScanResults item taskId check captured epcs st))
             = scannedEPCs st ++ added
           ∧ Forall (λ s, ∃ e, looked item taskId check e s) added.
Proof.
  destruct (settled (handleScanResults item taskId check captured epcs st))
    as [added|reason] eqn:E.
  - apply handleScanResults_resolved in E as (Hs & HF & _).
    exists added. split; [done|].
    clear Hs. induction HF; constructor; eauto.
  - apply handleScanResults_rejected in E as (-> & _).
    exists []. by rewrite app_nil_r.
Qed.

End Loop.

(** ** Facts shared by the theorems *)

Lemma uiStatusOf_cases item result :
  (status result = status_error_not_found →
     uiStatusOf item result = invalid_not_found)
  ∧ (status result ≠ status_error_not_found → status result = status_surplus →
     uiStatusOf item result = invalid_surplus)
  ∧ (status result ≠ status_error_not_found → status result ≠ status_surplus →
     assetId <$> assetInfo result ≠ Some (item_assetId item) →
     uiStatusOf item result = invalid_wrong_asset)
  ∧ (status result ≠ status_error_not_found → status result ≠ status_surplus →
     assetId <$> assetInfo result = Some (item_assetId item) →
     uiStatusOf item result = valid).
Proof. unfold uiStatusOf. repeat split; intros; repeat case_decide; done. Qed.

Lemma uiStatusOf_valid item result :
  uiStatusOf item result = valid →
  status result = status_valid
  ∧ ∃ info, assetInfo result = Some info ∧ assetId info = item_assetId item.
Proof.
  unfold uiStatusOf. repeat case_decide; try done. intros _.
  split; [by destruct (status result)|].
  destruct (decide (assetId <$> assetInfo result = Some (item_assetId item)))
    as [E|E]; [|done].
  destruct (assetInfo result) as [info|]; simplify_eq/=. by exists info.
Qed.

(** A scanned EPC that the handler does not know gets the record built from
    its lookup. *)
Lemma scanned_record item taskId check captured epcs st added e :
  settled (handleScanResults item taskId check captured epcs st) = Resolved added →
  e ∈ epcs → e ∉ epcsOf captured →
  ∃ result, check e taskId = Resolved result
            ∧ mkScannedUI result (uiStatusOf item result) ∈ added.
Proof.
  intros Hres He Hnew.
  apply handleScanResults_resolved in Hres as (_ & HF & Hl).
  destruct Hl as [Hl _]; [by intros ->; apply elem_of_nil in He|].
  assert (e ∈ lookups (handleScanResults item taskId check captured epcs st)) as Hin.
  { rewrite Hl, elem_of_spreadSetFrom, elem_of_spreadSet, elem_of_list_to_set.
    split; [|done]. unfold mockNewEpcs. apply elem_of_app. by left. }
  apply list_elem_of_lookup in Hin as [i Hi].
  destruct (Forall2_lookup_l _ _ _ _ _ HF Hi) as (s & Hs & result & E & ->).
  exists result. split; [done|]. by apply list_elem_of_lookup_2 in Hs.
Qed.

Lemma no_duplicate_status_step item taskId a st :
  Forall (λ s, uiStatus s ≠ invalid_duplicate) (scannedEPCs st) →
  Forall (λ s, uiStatus s ≠ invalid_duplicate) (scannedEPCs (step item taskId a st)).
Proof.
  intros Hst.
  destruct a as [check captured epcs|e|t|isInvalidList scan| |]; simpl; try done.
  - destruct (handleScanResults_session item taskId check captured epcs st)
      as (added & -> & Hadded).
    apply Forall_app. split; [done|].
    eapply Forall_impl; [exact Hadded|]. intros s [e Hs].
    by eapply looked_not_duplicate.
  - rewrite Forall_forall in *. intros s [_ Hs]%list_elem_of_filter. by apply Hst.
  - by destruct isInvalidList.
Qed.

Lemma no_duplicate_status_reachable item taskId st :
  reachable item taskId st →
  Forall (λ s, uiStatus s ≠ invalid_duplicate) (scannedEPCs st).
Proof.
  induction 1 as [|a st _ IH]; [constructor|].
  by apply no_duplicate_status_step.
Qed.

Lemma buckets_length (scans : list ScannedEpcUI) :
  Forall (λ s, uiStatus s ≠ invalid_duplicate) scans →
  length (filter (λ s : ScannedEpcUI, uiStatus s = valid) scans)
  + length (filter (λ s : ScannedEpcUI,
                      uiStatus s = invalid_surplus ∨ uiStatus s = invalid_wrong_asset)
                   scans)
  + length (filter (λ s : ScannedEpcUI, uiStatus s = invalid_not_found) scans)
  = length scans.
Proof.
  induction 1 as [|s scans Hs _ IH]; [done|].
  rewrite !filter_cons.
  destruct (uiStatus s) eqn:E; repeat case_decide; simpl; try lia;
    try done; intuition congruence.
Qed.

Lemma present_not_looked_up item taskId check captured epcs st e :
  e ∈ epcsOf captured →
  e ∉ lookups (handleScanResults item taskId check captured epcs st).
Proof.
  intros Hin Hl.
  destruct (handleScanResults_lookups item taskId check captured epcs st)
    as (pre & <- & [k Hk]).
  assert (e ∈ lookups (handleScanResults item taskId check captured epcs st) ++ k)
    as He by (apply elem_of_app; by left).
  rewrite <- Hk, elem_of_spreadSetFrom, elem_of_list_to_set in He. tauto.
Qed.

Lemma lookups_NoDup item taskId check captured epcs st :
  NoDup (lookups (handleScanResults item taskId check captured epcs st)).
Proof.
  destruct (handleScanResults_lookups item taskId check captured epcs st)
    as (pre & <- & [k Hk]).
  pose proof (NoDup_spreadSetFrom (list_to_set (epcsOf captured))
                (spreadSet (mockNewEpcs item epcs))) as Hnd.
  rewrite Hk in Hnd. by apply NoDup_app in Hnd as [? _].
Qed.

(** * The claims *)



(** C5: in every session reachable from the empty one, the valid, surplus
    and error buckets are pairwise disjoint and their sizes add up to the
    number of records of the session. *)
Theorem C5_buckets_partition item taskId st :
  reachable item taskId st →
  (∀ s, s ∈ validScans st → (s ∉ surplusScans st) ∧ (s ∉ errorScans st))
  ∧ (∀ s, s ∈ surplusScans st → s ∉ errorScans st)
  ∧ length (validScans st) + length (surplusScans st) + length (errorScans st)
    = length (scannedEPCs st).
Proof.
  intros Hreach. unfold validScans, surplusScans, errorScans.
  split; [|split].
  - intros s [Hv _]%list_elem_of_filter.
    split; intros [Hs _]%list_elem_of_filter; intuition congruence.
  - intros s [Hs _]%list_elem_of_filter [He _]%list_elem_of_filter.
    intuition congruence.
  - by apply buckets_length, (no_duplicate_status_reachable item taskId).
Qed.

Lemma C5_buckets_partition_witness :
  length (validScans Demo.afterXCagain) + length (surplusScans Demo.afterXCagain)
  + length (errorScans Demo.afterXCagain) = 9.
Proof.
  apply (C5_buckets_partition Demo.item Demo.taskId Demo.afterXCagain).
  apply (reachable_step _ _
           (ScanComplete Demo.registry (scannedEPCs Demo.afterA) ["X"; "C"])
           Demo.afterXC).
  apply (reachable_step _ _
           (ScanComplete Demo.registry (scannedEPCs Demo.afterA) ["X"; "C"])
           Demo.afterA).
  apply (reachable_step _ _ (ScanComplete Demo.registry [] ["A"]) initialState).
  apply reachable_initial.
Defined.




(** C10: when an append completes, the session holds its earlier records
    followed by the records added.  A scanned EPC that the handler takes as
    new and whose lookup is found (status [valid]) without an [assetInfo]
    gets an [invalid_wrong_asset] record in the session and no [valid]
    record is added for it; a record added as [valid] always comes from a
    found lookup whose [assetInfo] has the asset id of the current asset, so
    if the valid records of the session had such an [assetInfo] before the
    append, they all have one after it. *)
Theorem C10_missing_asset_info_is_wrong_asset item taskId check captured epcs st
    added :
  settled (handleScanResults item taskId check captured epcs st) = Resolved added →
  scannedEPCs (final (handleScanResults item taskId check captured epcs st))
    = scannedEPCs st ++ added
  ∧ (∀ e result,
        e ∈ epcs → e ∉ epcsOf captured →
        check e taskId = Resolved result →
        status result = status_valid → assetInfo result = None →
        mkScannedUI result invalid_wrong_asset
          ∈ scannedEPCs (final (handleScanResults item taskId check captured epcs st))
        ∧ mkScannedUI result valid ∉ added)
  ∧ (∀ s, s ∈ added → uiStatus s = valid →
          status s = status_valid
          ∧ ∃ info, assetInfo s = Some info ∧ assetId info = item_assetId item)
  ∧ ((∀ s, s ∈ scannedEPCs st → uiStatus s = valid →
           ∃ info, assetInfo s = Some info ∧ assetId info = item_assetId item) →
     ∀ s, s ∈ scannedEPCs (final (handleScanResults item taskId check captured epcs st)) →
          uiStatus s = valid →
          ∃ info, assetInfo s = Some info ∧ assetId info = item_assetId item).
Proof.
  intros Hres.
  pose proof (handleScanResults_resolved _ _ _ _ _ _ _ Hres) as (Hs & HF & _).
  assert (∀ s, s ∈ added → uiStatus s = valid →
               status s = status_valid
               ∧ ∃ info, assetInfo s = Some info ∧ assetId info = item_assetId item)
    as Hadded.
  { intros s Hin Hvalid.
    apply list_elem_of_lookup in Hin as [i Hi].
    destruct (Forall2_lookup_r _ _ _ _ _ HF Hi) as (e' & _ & r & _ & ->).
    simpl in *. by apply uiStatusOf_valid. }
  split; [done|]. split; [|split; [done|]].
  - intros e result He Hnew E Hfound Hnone.
    destruct (scanned_record _ _ _ _ _ _ _ _ Hres He Hnew) as (result' & E' & Hin).
    rewrite E in E'. injection E' as <-.
    assert (uiStatusOf item result = invalid_wrong_asset) as Hu.
    { apply uiStatusOf_cases; rewrite ?Hfound, ?Hnone; done. }
    rewrite Hu in Hin. split; [rewrite Hs; apply elem_of_app; by right|].
    intros Hvalid. destruct (Hadded _ Hvalid eq_refl) as (_ & info & Hinfo & _).
    simpl in Hinfo. congruence.
  - intros Hold s Hin Hvalid. rewrite Hs in Hin.
    apply elem_of_app in Hin as [Hin|Hin]; [by apply Hold|].
    by apply Hadded.
Qed.

Lemma C10_missing_asset_info_is_wrong_asset_witness :
  mkScannedUI (mkScanned "X" status_valid None) invalid_wrong_asset
    ∈ scannedEPCs Demo.afterXC
  ∧ mkScannedUI (mkScanned "X" status_valid None) valid ∉ Demo.addedXC.
Proof.
  apply (C10_missing_asset_info_is_wrong_asset Demo.item Demo.taskId Demo.registry
           (scannedEPCs Demo.afterA) ["X"; "C"] Demo.afterA Demo.addedXC)
    with (e := "X").
  - vm_compute. reflexivity.
  - by_computation.
  - by_computation.
  - reflexivity.
  - reflexivity.
  - reflexivity.
Defined.

(** ** Re-scanning an EPC of the session *)

(** C2 as stated does not hold: when A, already recorded, is scanned again
    the call adds nothing and no record of the session has status
    [invalid_duplicate]. *)
Lemma C2_rescan_counterexample :
  "A" ∈ epcsOf (scannedEPCs Demo.afterA)
  ∧ settled (handleScanResults Demo.item Demo.taskId Demo.registry
               (scannedEPCs Demo.afterA) ["A"] Demo.afterA)
    = Resolved []
  ∧ ¬ ∃ s, s ∈ scannedEPCs
                 (final (handleScanResults Demo.item Demo.taskId Demo.registry
                           (scannedEPCs Demo.afterA) ["A"] Demo.afterA))
           ∧ uiStatus s = invalid_duplicate.
Proof.
  split; [by_computation|]. split; [vm_compute; reflexivity|].
  intros (s & Hs & Hdup).
  assert (reachable Demo.item Demo.taskId
            (final (handleScanResults Demo.item Demo.taskId Demo.registry
                      (scannedEPCs Demo.afterA) ["A"] Demo.afterA))) as Hreach.
  { apply (reachable_step _ _
             (ScanComplete Demo.registry (scannedEPCs Demo.afterA) ["A"])).
    apply (reachable_step _ _ (ScanComplete Demo.registry [] ["A"])).
    apply reachable_initial. }
  apply no_duplicate_status_reachable in Hreach.
  rewrite Forall_forall in Hreach. by apply (Hreach s).
Qed.

(** C2, amended: an EPC that is among the records the handler captured (for
    the handler of the current render: an EPC already recorded in the
    session) is skipped when it is scanned again: it is not looked up and no
    record is made for it, the records of the session stay as they are, and
    no record the call adds has status [invalid_duplicate] (nor, when the
    registry answers about the EPC it is asked about, the EPC that was
    re-scanned). *)
Theorem C2_rescan_is_skipped item taskId check captured epcs st e :
  e ∈ epcsOf captured →
  (e ∉ lookups (handleScanResults item taskId check captured epcs st))
  ∧ ∃ added,
      scannedEPCs (final (handleScanResults item taskId check captured epcs st))
        = scannedEPCs st ++ added
      ∧ Forall (λ s, uiStatus s ≠ invalid_duplicate) added
      ∧ (echoes check taskId → e ∉ epcsOf added).
Proof.
  intros He. split; [by apply present_not_looked_up|].
  destruct (settled (handleScanResults item taskId check captured epcs st))
    as [added|reason] eqn:E.
  - pose proof (present_not_looked_up item taskId check captured epcs st e He)
      as Hnot.
    apply handleScanResults_resolved in E as (Hs & HF & _).
    exists added. split; [done|]. split.
    + clear Hs Hnot. induction HF as [|e' s l rs Hl _ IH]; constructor; [|done].
      by eapply looked_not_duplicate.
    + intros Hecho. by rewrite (looked_epcs _ _ _ _ _ Hecho HF).
  - apply handleScanResults_rejected in E as (-> & _).
    exists []. rewrite app_nil_r. split; [done|]. split; [constructor|].
    intros _. apply not_elem_of_nil.
Qed.

Lemma C2_rescan_is_skipped_witness :
  "X" ∉ lookups (handleScanResults Demo.item Demo.taskId Demo.registry
                   (scannedEPCs Demo.afterXC) ["X"; "C"] Demo.afterXC).
Proof.
  apply (C2_rescan_is_skipped Demo.item Demo.taskId Demo.registry
           (scannedEPCs Demo.afterXC) ["X"; "C"] Demo.afterXC "X").
  by_computation.
Defined.

(** ** Uniqueness of the EPCs of a session *)

Lemma echoes_demo : echoes Demo.registry Demo.taskId.
Proof.
  intros e result. unfold Demo.registry.
  repeat case_decide; intros [= <-]; done.
Defined.

Lemma knowsSession_current st : knowsSession (scannedEPCs st) st.
Proof. intros e He. exact He. Defined.

Lemma unique_epcs_append item taskId check captured epcs st :
  echoes check taskId →
  knowsSession captured st →
  NoDup (epcsOf (scannedEPCs st)) →
  NoDup (epcsOf (scannedEPCs
                   (final (handleScanResults item taskId check captured epcs st)))).
Proof.
  intros Hecho Hknows Hnd.
  destruct (settled (handleScanResults item taskId check captured epcs st))
    as [added|reason] eqn:E.
  - pose proof (lookups_NoDup item taskId check captured epcs st) as Hl.
    pose proof (λ e, present_not_looked_up item taskId check captured epcs st e)
      as Hnew.
    apply handleScanResults_resolved in E as (-> & HF & _).
    rewrite <- (looked_epcs _ _ _ _ _ Hecho HF) in Hl, Hnew.
    unfold epcsOf in *. rewrite fmap_app. apply NoDup_app.
    split; [done|]. split; [|done].
    intros e He. apply Hnew. by apply Hknows.
  - by apply handleScanResults_rejected in E as (-> & _).
Qed.

Lemma unique_epcs_delete epcToDelete st :
  NoDup (epcsOf (scannedEPCs st)) →
  NoDup (epcsOf (scannedEPCs (handleDeleteInvalidScan epcToDelete st))).
Proof.
  simpl. intros Hnd. eapply sublist_NoDup; [exact Hnd|]. unfold epcsOf.
  apply fmap_sublist, sublist_filter.
Qed.

(** C4 as stated does not hold, in two ways.  The handler made when the
    session held A, B and the three fixed EPCs completes a scan of X and C
    twice: the first time it leaves a session with different EPCs, the
    second time it stores X and C again.  And with a registry that answers
    a lookup with the record of another EPC, one append to a session with
    different EPCs stores a second record with the EPC A. *)
Lemma C4_unique_epcs_counterexample :
  (NoDup (epcsOf (scannedEPCs Demo.afterXC))
   ∧ ¬ NoDup (epcsOf (scannedEPCs
                        (final (handleScanResults Demo.item Demo.taskId Demo.registry
                                  (scannedEPCs Demo.afterA) ["X"; "C"]
                                  Demo.afterXC)))))
  ∧ (NoDup (epcsOf (scannedEPCs Demo.afterA))
     ∧ ¬ NoDup (epcsOf (scannedEPCs
                          (final (handleScanResults Demo.item Demo.taskId
                                    Demo.mislabelling (scannedEPCs Demo.afterA)
                                    ["C"] Demo.afterA))))).
Proof.
  repeat split; by_computation.
Qed.

(** C4, amended: removing a record keeps the EPCs of the session's records
    pairwise different, and so does appending a batch, whatever the batch
    repeats and whatever the session already holds, when the append comes
    through a handler whose captured records hold every EPC of the session
    (as those of the handler of the current render do) and the registry
    answers about the EPC it is asked about. *)
Theorem C4_unique_epcs_preserved item taskId check captured epcs epcToDelete st :
  echoes check taskId →
  knowsSession captured st →
  NoDup (epcsOf (scannedEPCs st)) →
  NoDup (epcsOf (scannedEPCs
                   (final (handleScanResults item taskId check captured epcs st))))
  ∧ NoDup (epcsOf (scannedEPCs (handleDeleteInvalidScan epcToDelete st))).
Proof.
  intros Hecho Hknows Hnd. split.
  - by apply unique_epcs_append.
  - by apply unique_epcs_delete.
Qed.

Lemma C4_unique_epcs_preserved_witness :
  NoDup (epcsOf (scannedEPCs
           (final (handleScanResults Demo.item Demo.taskId Demo.registry
                     (scannedEPCs Demo.afterA) ["C"; "A"; "C"; "B"] Demo.afterA))))
  ∧ NoDup (epcsOf (scannedEPCs (handleDeleteInvalidScan "UNKNOWN-EPC-123" Demo.afterA))).
Proof.
  apply (C4_unique_epcs_preserved Demo.item Demo.taskId Demo.registry
           (scannedEPCs Demo.afterA) ["C"; "A"; "C"; "B"] "UNKNOWN-EPC-123"
           Demo.afterA).
  - exact echoes_demo.
  - apply knowsSession_current.
  - by_computation.
Defined.

(** ** Appending the same batch twice *)

Lemma handleScanResults_all_seen item taskId check captured epcs st :
  isProcessing st = false →
  (∀ e, e ∈ mockNewEpcs item epcs → e ∈ epcsOf captured) →
  handleScanResults item taskId check captured epcs st = mkRun st [] (Resolved []).
Proof.
  intros Hidle Hall. unfold handleScanResults. case_decide as Hlen; [done|].
  rewrite scanLoop_all_seen.
  - simpl. by rewrite setIsProcessing_undo.
  - intros e He. rewrite elem_of_spreadSet in He.
    apply elem_of_list_to_set. by apply Hall.
Qed.

(** C8 as stated does not hold, in two ways.  When the handler that
    completed a scan of X and C is called again with the same batch, no new
    handler having been handed over, it adds the records of X and C a second
    time.  And with a registry that answers a lookup with the record of
    another EPC, appending C twice, each time through the handler of the
    current render, adds a record the second time too. *)
Lemma C8_append_twice_counterexample :
  (Demo.afterXC = final (handleScan Demo.item Demo.taskId Demo.registry
                           Demo.afterA ["X"; "C"] Demo.afterA)
   ∧ settled (handleScan Demo.item Demo.taskId Demo.registry
                Demo.afterA ["X"; "C"] Demo.afterXC)
     = Resolved Demo.addedXC
   ∧ scannedEPCs (final (handleScan Demo.item Demo.taskId Demo.registry
                           Demo.afterA ["X"; "C"] Demo.afterXC))
     = scannedEPCs Demo.afterXC ++ Demo.addedXC)
  ∧ (Demo.afterMislabelled
     = final (handleScan Demo.item Demo.taskId Demo.mislabelling
                Demo.afterA ["C"] Demo.afterA)
     ∧ settled (handleScan Demo.item Demo.taskId Demo.mislabelling
                  Demo.afterMislabelled ["C"] Demo.afterMislabelled)
       = Resolved [mkScannedUI (mkScanned "A" status_valid (Some Demo.laptop))
                               valid]).
Proof.
  repeat split; vm_compute; reflexivity.
Qed.

(** C8, amended: when each of the two appends comes through the handler of
    the render it meets (so the second handler has captured the session the
    first append left), the registry is unchanged and answers about the EPC
    it is asked about, and the first append completes, then the first append
    adds its records after those of the session, and appending the same
    batch again adds nothing, issues no lookup and leaves the session, and
    the whole state of the screen, as the first append left it. *)
Theorem C8_append_twice item taskId check epcs st added :
  echoes check taskId →
  settled (handleScan item taskId check st epcs st) = Resolved added →
  scannedEPCs (final (handleScan item taskId check st epcs st))
    = scannedEPCs st ++ added
  ∧ settled (handleScan item taskId check
               (final (handleScan item taskId check st epcs st)) epcs
               (final (handleScan item taskId check st epcs st)))
    = Resolved []
  ∧ lookups (handleScan item taskId check
               (final (handleScan item taskId check st epcs st)) epcs
               (final (handleScan item taskId check st epcs st)))
    = []
  ∧ final (handleScan item taskId check
             (final (handleScan item taskId check st epcs st)) epcs
             (final (handleScan item taskId check st epcs st)))
    = final (handleScan item taskId check st epcs st).
Proof.
  unfold handleScan. intros Hecho Hres.
  pose proof (handleScanResults_resolved _ _ _ _ _ _ _ Hres) as (Hs & HF & Hl).
  split; [done|].
  destruct epcs as [|e0 epcs]; [done|].
  destruct Hl as [Hl Hidle]; [done|].
  rewrite handleScanResults_all_seen; [done|done|].
  intros e He. rewrite Hs. unfold epcsOf. rewrite fmap_app. apply elem_of_app.
  destruct (decide (e ∈ epcsOf (scannedEPCs st))) as [Hold|Hnew]; [by left|].
  right. fold (epcsOf added). rewrite (looked_epcs _ _ _ _ _ Hecho HF), Hl.
  rewrite elem_of_spreadSetFrom, elem_of_spreadSet, elem_of_list_to_set. done.
Qed.

Lemma C8_append_twice_witness :
  scannedEPCs Demo.afterXC = scannedEPCs Demo.afterA ++ Demo.addedXC
  ∧ settled (handleScan Demo.item Demo.taskId Demo.registry
               Demo.afterXC ["X"; "C"] Demo.afterXC)
    = Resolved []
  ∧ lookups (handleScan Demo.item Demo.taskId Demo.registry
               Demo.afterXC ["X"; "C"] Demo.afterXC)
    = []
  ∧ final (handleScan Demo.item Demo.taskId Demo.registry
             Demo.afterXC ["X"; "C"] Demo.afterXC)
    = Demo.afterXC.
Proof.
  apply (C8_append_twice Demo.item Demo.taskId Demo.registry ["X"; "C"]
           Demo.afterA Demo.addedXC).
  - exact echoes_demo.
  - vm_compute. reflexivity.
Defined.

(** ** A lookup that fails *)

(** When the loop is due to look up an EPC whose lookup fails, it ends with
    a failed lookup: the first one that fails, every lookup before it
    having answered. *)
Lemma scanLoop_fails item taskId check l :
  ∀ cur ns calls e reason,
    e ∈ l → e ∉ cur → check e taskId = Rejected reason →
    ∃ pre e' reason',
      scanLoop item taskId check l cur ns calls
      = (calls ++ pre ++ [e'], Rejected reason')
      ∧ check e' taskId = Rejected reason'
      ∧ Forall (λ x, ∃ result, check x taskId = Resolved result) pre.
Proof.
  induction l as [|x l IH]; intros cur ns calls e reason He Hcur E; simpl.
  - by apply elem_of_nil in He.
  - case_decide as Hin.
    + apply elem_of_cons in He as [->|He]; [done|]. by eapply IH.
    + destruct (check x taskId) as [result|reason'] eqn:Ex.
      * apply elem_of_cons in He as [->|He]; [congruence|].
        assert (e ∉ {[x]} ∪ cur) as Hcur'.
        { rewrite elem_of_union, elem_of_singleton. intros [->|?]; [congruence|done]. }
        destruct (IH ({[x]} ∪ cur)
                     (ns ++ [mkScannedUI result (uiStatusOf item result)])
                     (calls ++ [x]) e reason He Hcur' E)
          as (pre & e' & reason' & -> & E' & Hpre).
        exists (x :: pre), e', reason'. rewrite <- !app_assoc.
        split; [done|]. split; [done|]. constructor; [by exists result|done].
      * exists [], x, reason'. split; [done|]. split; [done|]. constructor.
Qed.

Lemma handleScanResults_fails item taskId check captured epcs st e reason :
  epcs ≠ [] → e ∈ mockNewEpcs item epcs → e ∉ epcsOf captured →
  check e taskId = Rejected reason →
  ∃ pre e' reason',
    handleScanResults item taskId check captured epcs st
    = mkRun (setIsProcessing true st) (pre ++ [e']) (Rejected reason')
    ∧ check e' taskId = Rejected reason'
    ∧ Forall (λ x, ∃ result, check x taskId = Resolved result) pre.
Proof.
  intros Hne He Hnew E. unfold handleScanResults.
  rewrite decide_False by (by destruct epcs).
  destruct (scanLoop_fails item taskId check (spreadSet (mockNewEpcs item epcs))
              (list_to_set (epcsOf captured)) [] [] e reason)
    as (pre & e' & reason' & -> & E' & Hpre).
  - by apply elem_of_spreadSet.
  - by rewrite elem_of_list_to_set.
  - done.
  - by exists pre, e', reason'.
Qed.

(** C7 as stated does not hold: the lookup of DOWN fails in the middle of a
    batch, the call rejects with that failure and the session stays empty;
    there is no [invalid_not_found] record for DOWN, nor the record of A
    that was classified before. *)
Lemma C7_lookup_failure_counterexample :
  Demo.registry "DOWN" Demo.taskId = Rejected "network error"
  ∧ settled (handleScanResults Demo.item Demo.taskId Demo.registry
               (scannedEPCs initialState) ["A"; "DOWN"; "C"] initialState)
    = Rejected "network error"
  ∧ scannedEPCs (final (handleScanResults Demo.item Demo.taskId Demo.registry
                          (scannedEPCs initialState) ["A"; "DOWN"; "C"]
                          initialState))
    = []
  ∧ ¬ ∃ s : ScannedEpcUI,
          s ∈ scannedEPCs
                (final (handleScanResults Demo.item Demo.taskId Demo.registry
                          (scannedEPCs initialState) ["A"; "DOWN"; "C"]
                          initialState))
           ∧ epc s = "DOWN" ∧ uiStatus s = invalid_not_found.
Proof.
  split; [reflexivity|]. split; [vm_compute; reflexivity|].
  assert (scannedEPCs (final (handleScanResults Demo.item Demo.taskId Demo.registry
                                (scannedEPCs initialState) ["A"; "DOWN"; "C"]
                                initialState)) = []) as ->
    by (vm_compute; reflexivity).
  split; [done|]. intros (s & Hs & _). by apply elem_of_nil in Hs.
Qed.

(** C7, amended: when the lookup of an EPC that an append is due to look up
    (an EPC of the batch, or one the handler adds to it, that is not among
    the records the handler captured) fails, the call rejects, with the
    failure of the first lookup that fails, and the whole batch is dropped:
    the session keeps exactly the records it had, those of the batch that
    were classified before the failure are not added.  The failed lookup is
    the last one the call issues and it is not retried: every lookup before
    it had answered and no EPC is looked up twice. *)
Theorem C7_lookup_failure_aborts_batch item taskId check captured epcs st e reason :
  epcs ≠ [] →
  e ∈ mockNewEpcs item epcs →
  e ∉ epcsOf captured →
  check e taskId = Rejected reason →
  ∃ pre e' reason',
    settled (handleScanResults item taskId check captured epcs st) = Rejected reason'
    ∧ check e' taskId = Rejected reason'
    ∧ lookups (handleScanResults item taskId check captured epcs st) = pre ++ [e']
    ∧ Forall (λ x, ∃ result, check x taskId = Resolved result) pre
    ∧ NoDup (pre ++ [e'])
    ∧ scannedEPCs (final (handleScanResults item taskId check captured epcs st))
      = scannedEPCs st.
Proof.
  intros Hne He Hnew E.
  pose proof (lookups_NoDup item taskId check captured epcs st) as Hnd.
  destruct (handleScanResults_fails item taskId check captured epcs st e reason
              Hne He Hnew E) as (pre & e' & reason' & Hrun & E' & Hpre).
  rewrite Hrun in *. simpl in *. by exists pre, e', reason'.
Qed.

Lemma C7_lookup_failure_aborts_batch_witness :
  ∃ pre e' reason',
    settled (handleScanResults Demo.item Demo.taskId Demo.registry
               (scannedEPCs Demo.afterA) ["C"; "DOWN"; "X"] Demo.afterA)
    = Rejected reason'
    ∧ Demo.registry e' Demo.taskId = Rejected reason'
    ∧ lookups (handleScanResults Demo.item Demo.taskId Demo.registry
                 (scannedEPCs Demo.afterA) ["C"; "DOWN"; "X"] Demo.afterA)
      = pre ++ [e']
    ∧ Forall (λ x, ∃ result, Demo.registry x Demo.taskId = Resolved result) pre
    ∧ NoDup (pre ++ [e'])
    ∧ scannedEPCs (final (handleScanResults Demo.item Demo.taskId Demo.registry
                            (scannedEPCs Demo.afterA) ["C"; "DOWN"; "X"]
                            Demo.afterA))
      = scannedEPCs Demo.afterA.
Proof.
  apply (C7_lookup_failure_aborts_batch Demo.item Demo.taskId Demo.registry
           (scannedEPCs Demo.afterA) ["C"; "DOWN"; "X"] Demo.afterA
           "DOWN" "network error").
  - done.
  - by_computation.
  - by_computation.
  - reflexivity.
Defined.

(** ** Scenario 1: scanning A when A and B are expected *)

Lemma spreadSetFrom_id seen l :
  NoDup l → (∀ x, x ∈ l → x ∉ seen) → spreadSetFrom seen l = l.
Proof.
  intros Hnd. revert seen.
  induction Hnd as [|x l Hx _ IH]; intros seen Hseen; [done|].
  rewrite spreadSetFrom_fresh by (apply Hseen; left). f_equal. apply IH.
  intros y Hy. rewrite elem_of_union, elem_of_singleton.
  intros [->|Hs]; [done|]. apply (Hseen y); [by right|done].
Qed.

Lemma uniqueEpcs_scenario item A B :
  expectedEpcs item = [A; B] ∨ expectedEpcs item = [B; A] →
  NoDup [A; B; "EPC-E5-001"; "EPC-A1-001"; "UNKNOWN-EPC-123"] →
  spreadSet (mockNewEpcs item [A])
  = [A; B; "EPC-E5-001"; "EPC-A1-001"; "UNKNOWN-EPC-123"].
Proof.
  intros Hexp Hnd. unfold spreadSet, mockNewEpcs.
  pose proof Hnd as Hnd'.
  apply NoDup_cons in Hnd' as [HA Hnd']. pose proof Hnd' as HndB.
  apply NoDup_cons in Hnd' as [HB Hnd'].
  assert (A ≠ B) as HAB by (intros ->; apply HA; left).
  destruct Hexp as [-> | ->]; simpl take; simpl app.
  - rewrite spreadSetFrom_fresh by apply not_elem_of_empty.
    rewrite spreadSetFrom_seen
      by (apply elem_of_union; left; by apply elem_of_singleton).
    f_equal. apply spreadSetFrom_id; [done|].
    intros x Hx. rewrite elem_of_union, elem_of_singleton.
    intros [->|Hempty]; [done|]. by apply not_elem_of_empty in Hempty.
  - rewrite spreadSetFrom_fresh by apply not_elem_of_empty.
    rewrite spreadSetFrom_fresh.
    2:{ rewrite elem_of_union, elem_of_singleton.
        intros [->|Hempty]; [done|]. by apply not_elem_of_empty in Hempty. }
    rewrite spreadSetFrom_seen.
    2:{ rewrite !elem_of_union, !elem_of_singleton. tauto. }
    do 2 f_equal. apply spreadSetFrom_id; [done|].
    intros x Hx. rewrite !elem_of_union, !elem_of_singleton.
    intros [->|[->|Hempty]]; [done| |by apply not_elem_of_empty in Hempty].
    apply HA. by right.
Qed.

(** C3 as stated does not hold: with A and B expected, scanning A into the
    empty session stores five records, for A, B and the three EPCs the
    handler adds to every batch, and two of them are valid. *)
Lemma C3_scan_A_counterexample :
  expectedEpcs Demo.item = ["A"; "B"]
  ∧ epcsOf (scannedEPCs
              (final (handleScanResults Demo.item Demo.taskId Demo.registry
                        (scannedEPCs initialState) ["A"] initialState)))
    = ["A"; "B"; "EPC-E5-001"; "EPC-A1-001"; "UNKNOWN-EPC-123"]
  ∧ scannedEPCs (final (handleScanResults Demo.item Demo.taskId Demo.registry
                          (scannedEPCs initialState) ["A"] initialState))
    ≠ [mkScannedUI (mkScanned "A" status_valid (Some Demo.laptop)) valid]
  ∧ confirmedCount (final (handleScanResults Demo.item Demo.taskId Demo.registry
                             (scannedEPCs initialState) ["A"] initialState)) = 2.
Proof.
  split; [reflexivity|]. split; [vm_compute; reflexivity|].
  split; [|vm_compute; reflexivity].
  intros Heq. apply (f_equal length) in Heq. vm_compute in Heq. discriminate.
Qed.

(** C3, amended: with A and B expected (both different from the three EPCs
    the handler adds to every batch) and A reported by the registry as found
    for the current asset, scanning A into the empty session looks up A, B,
    EPC-E5-001, EPC-A1-001 and UNKNOWN-EPC-123 in this order and, when all
    five lookups answer, stores one record for each: the first is the valid
    record of A, and the confirmed count is 1 plus the number of valid
    records among the other four. *)
Theorem C3_scan_A_amended item taskId check A B rA added :
  expectedEpcs item = [A; B] ∨ expectedEpcs item = [B; A] →
  NoDup [A; B; "EPC-E5-001"; "EPC-A1-001"; "UNKNOWN-EPC-123"] →
  check A taskId = Resolved rA →
  epc rA = A →
  status rA = status_valid →
  assetId <$> assetInfo rA = Some (item_assetId item) →
  settled (handleScanResults item taskId check (scannedEPCs initialState)
             [A] initialState) = Resolved added →
  lookups (handleScanResults item taskId check (scannedEPCs initialState)
             [A] initialState)
    = [A; B; "EPC-E5-001"; "EPC-A1-001"; "UNKNOWN-EPC-123"]
  ∧ scannedEPCs (final (handleScanResults item taskId check
                          (scannedEPCs initialState) [A] initialState))
    = added
  ∧ ∃ sA others,
      added = sA :: others
      ∧ epc sA = A ∧ uiStatus sA = valid
      ∧ Forall2 (looked item taskId check)
                [B; "EPC-E5-001"; "EPC-A1-001"; "UNKNOWN-EPC-123"] others
      ∧ onConfirm item taskId
          (final (handleScanResults item taskId check (scannedEPCs initialState)
                    [A] initialState))
        = (taskId, item_assetId item,
           1 + length (filter (λ s : ScannedEpcUI, uiStatus s = valid) others)).
Proof.
  intros Hexp Hnd EA Hepc Hfound Hasset Hres.
  pose proof (handleScanResults_resolved _ _ _ _ _ _ _ Hres) as (Hs & HF & Hl).
  destruct Hl as [Hl _]; [done|].
  change (scannedEPCs initialState ++ added) with added in Hs.
  rewrite (uniqueEpcs_scenario item A B Hexp Hnd) in Hl.
  rewrite spreadSetFrom_id in Hl;
    [|done|intros x _; apply not_elem_of_empty].
  split; [done|]. split; [done|].
  rewrite Hl in HF.
  apply Forall2_cons_inv_l in HF as (sA & others & (r & E & ->) & HF & ->).
  rewrite EA in E. injection E as <-.
  assert (uiStatusOf item rA = valid) as Hvalid.
  { apply uiStatusOf_cases; rewrite ?Hfound; done. }
  rewrite Hvalid in *.
  exists (mkScannedUI rA valid), others.
  split; [done|]. split; [done|]. split; [done|]. split; [done|].
  unfold onConfirm, confirmedCount, validScans. rewrite Hs.
  by rewrite filter_cons_True.
Qed.

Lemma C3_scan_A_amended_witness :
  lookups (handleScanResults Demo.item Demo.taskId Demo.registry
             (scannedEPCs initialState) ["A"] initialState)
    = ["A"; "B"; "EPC-E5-001"; "EPC-A1-001"; "UNKNOWN-EPC-123"]
  ∧ (∃ sA, head (scannedEPCs Demo.afterA) = Some sA
           ∧ epc sA = "A" ∧ uiStatus sA = valid)
  ∧ onConfirm Demo.item Demo.taskId Demo.afterA = ("TASK-1", "asset-1", 2).
Proof.
  destruct (C3_scan_A_amended Demo.item Demo.taskId Demo.registry "A" "B"
              (mkScanned "A" status_valid (Some Demo.laptop))
              (scannedEPCs Demo.afterA))
    as (Hl & _ & sA & others & Hadded & HA & Hvalid & _).
  - by left.
  - by_computation.
  - reflexivity.
  - reflexivity.
  - reflexivity.
  - reflexivity.
  - vm_compute. reflexivity.
  - split; [exact Hl|]. split; [|vm_compute; reflexivity].
    exists sA. rewrite Hadded. by repeat split.
Defined.

(** ** Removing a record *)




(** * Further properties of the screen *)

(** ** Lists *)

Lemma existsb_bool_decide {A} (P : A → Prop) `{∀ x, Decision (P x)} (l : list A) :
  existsb (λ x, bool_decide (P x)) l = true ↔ Exists P l.
Proof.
  induction l as [|x l IH]; simpl.
  - split; [done|]. by intros ?%Exists_nil.
  - by rewrite orb_true_iff, IH, Exists_cons, bool_decide_eq_true.
Qed.

Lemma filter_agree {A} (P Q : A → Prop) `{∀ x, Decision (P x)}
    `{∀ x, Decision (Q x)} (l : list A) :
  (∀ x, x ∈ l → P x ↔ Q x) → filter P l = filter Q l.
Proof.
  induction l as [|x l IH]; intros Hagree; [done|].
  rewrite !filter_cons.
  assert (P x ↔ Q x) as Hx by (apply Hagree; left).
  rewrite IH by (intros y Hy; apply Hagree; by right).
  repeat case_decide; tauto.
Qed.

Lemma length_spreadSetFrom seen l :
  (length (spreadSetFrom seen l) ≤ length l)%nat.
Proof.
  revert seen. induction l as [|x l IH]; intros seen; simpl; [done|].
  case_decide; simpl; [specialize (IH seen) | specialize (IH ({[x]} ∪ seen))]; lia.
Qed.

Lemma spreadSetFrom_filter seen l :
  NoDup l → spreadSetFrom seen l = filter (λ x, x ∉ seen) l.
Proof.
  intros Hnd. revert seen.
  induction Hnd as [|x l Hx _ IH]; intros seen; [done|].
  destruct (decide (x ∈ seen)) as [Hin|Hout].
  - rewrite spreadSetFrom_seen, filter_cons_False by tauto. apply IH.
  - rewrite spreadSetFrom_fresh, filter_cons_True, IH by done. f_equal.
    apply filter_agree. intros y Hy.
    rewrite elem_of_union, elem_of_singleton.
    split; [tauto|]. intros Hn [->|?]; done.
Qed.

Lemma unique_epc_record (scans : list ScannedEpcUI) (s s' : ScannedEpcUI) :
  NoDup (epcsOf scans) → s ∈ scans → s' ∈ scans → epc s = epc s' → s = s'.
Proof.
  unfold epcsOf. induction scans as [|x scans IH]; intros Hnd Hs Hs' Heq.
  - by apply elem_of_nil in Hs.
  - rewrite fmap_cons in Hnd. apply NoDup_cons in Hnd as [Hx Hnd].
    apply elem_of_cons in Hs as [->|Hs]; apply elem_of_cons in Hs' as [->|Hs'].
    + done.
    + destruct Hx. rewrite Heq. apply list_elem_of_fmap. by exists s'.
    + destruct Hx. rewrite <- Heq. apply list_elem_of_fmap. by exists s.
    + by apply IH.
Qed.

(** ** Scanning: tabs, spinner, lookups, order *)

Lemma handleScanResults_frame item taskId check captured epcs st :
  swipedInvalidEpc (final (handleScanResults item taskId check captured epcs st))
    = swipedInvalidEpc st
  ∧ popupInfo (final (handleScanResults item taskId check captured epcs st)) = popupInfo st.
Proof.
  unfold handleScanResults. case_decide as Hlen; [done|]. simpl.
  destruct (scanLoop _ _ _ _ _ _ _) as [calls [out|reason]]; simpl; [|done].
  repeat destruct (existsb _ _); by case_decide.
Qed.

(** X1: after a scan that completes, the error tab is selected when a record
    added by it was not found in the registry; otherwise the surplus tab,
    when a record added is surplus or of another asset; otherwise the tab
    stays the one it was.  The tapped row and the popup are not touched. *)
Theorem scan_selects_tab item taskId check captured epcs st added :
  settled (handleScanResults item taskId check captured epcs st) = Resolved added →
  (Exists (λ s, uiStatus s = invalid_not_found) added →
   activeTab (final (handleScanResults item taskId check captured epcs st)) = tab_error)
  ∧ (Forall (λ s, uiStatus s ≠ invalid_not_found) added →
     Exists (λ s, uiStatus s = invalid_surplus ∨ uiStatus s = invalid_wrong_asset)
            added →
     activeTab (final (handleScanResults item taskId check captured epcs st)) = tab_surplus)
  ∧ (Forall (λ s, uiStatus s = valid) added →
     activeTab (final (handleScanResults item taskId check captured epcs st)) = activeTab st)
  ∧ swipedInvalidEpc (final (handleScanResults item taskId check captured epcs st))
    = swipedInvalidEpc st
  ∧ popupInfo (final (handleScanResults item taskId check captured epcs st)) = popupInfo st.
Proof.
  intros Hres.
  split; [|split; [|split; [|apply handleScanResults_frame]]];
    revert Hres; unfold handleScanResults; (case_decide as Hlen; simpl;
      [intros [= <-]
      |destruct (scanLoop _ _ _ _ _ _ _) as [calls [out|reason]]; simpl; [|done];
       intros [= ->]]).
  - by intros ?%Exists_nil.
  - intros Hex.
    apply (existsb_bool_decide (λ s : ScannedEpcUI, uiStatus s = invalid_not_found))
      in Hex.
    rewrite Hex. by case_decide.
  - by intros _ ?%Exists_nil.
  - intros Hall Hex.
    destruct (existsb (λ s : ScannedEpcUI,
                         bool_decide (uiStatus s = invalid_not_found)) added) eqn:E.
    { apply existsb_bool_decide, Exists_exists in E as (s & Hs & Hnf).
      rewrite Forall_forall in Hall. destruct (Hall s Hs Hnf). }
    apply (existsb_bool_decide
             (λ s : ScannedEpcUI,
                uiStatus s = invalid_surplus ∨ uiStatus s = invalid_wrong_asset))
      in Hex.
    rewrite Hex. by case_decide.
  - done.
  - intros Hall. rewrite Forall_forall in Hall.
    destruct (existsb (λ s : ScannedEpcUI,
                         bool_decide (uiStatus s = invalid_not_found)) added) eqn:E1.
    { apply existsb_bool_decide, Exists_exists in E1 as (s & Hs & Hnf).
      rewrite (Hall s Hs) in Hnf. done. }
    destruct (existsb (λ s : ScannedEpcUI,
                         bool_decide (uiStatus s = invalid_surplus
                                      ∨ uiStatus s = invalid_wrong_asset)) added)
      eqn:E2.
    { apply existsb_bool_decide, Exists_exists in E2 as (s & Hs & Hnf).
      rewrite (Hall s Hs) in Hnf. by destruct Hnf. }
    by case_decide.
Qed.

Lemma scan_selects_tab_witness :
  activeTab (final (handleScanResults Demo.item Demo.taskId Demo.registry
                      (scannedEPCs Demo.afterA) ["X"; "C"]
                      (setActiveTab tab_valid Demo.afterA)))
  = tab_error.
Proof.
  apply (scan_selects_tab Demo.item Demo.taskId Demo.registry
           (scannedEPCs Demo.afterA) ["X"; "C"]
           (setActiveTab tab_valid Demo.afterA) Demo.addedXC).
  - vm_compute. reflexivity.
  - apply Exists_cons_tl, Exists_cons_hd. reflexivity.
Defined.

Lemma lookup_is_due item taskId check captured epcs st e :
  e ∈ lookups (handleScanResults item taskId check captured epcs st) →
  e ∈ mockNewEpcs item epcs ∧ (e ∉ epcsOf captured).
Proof.
  intros He.
  destruct (handleScanResults_lookups item taskId check captured epcs st)
    as (pre & <- & [k Hk]).
  assert (e ∈ lookups (handleScanResults item taskId check captured epcs st) ++ k)
    as Hin by (apply elem_of_app; by left).
  by rewrite <- Hk, elem_of_spreadSetFrom, elem_of_spreadSet,
    elem_of_list_to_set in Hin.
Qed.

(** X2: after a scan of a non-empty batch the screen is left processing (the
    Scan button disabled, line 295) exactly when the lookup of an EPC the
    scan is due to look up (an EPC of the batch, or one the handler adds to
    it, that is not among the records the handler captured) fails; such a
    scan changes nothing else of the state. *)
Theorem spinner_stays_iff_lookup_failed item taskId check captured epcs st :
  epcs ≠ [] →
  (isProcessing (final (handleScanResults item taskId check captured epcs st)) = true
   ↔ ∃ e reason, e ∈ mockNewEpcs item epcs ∧ (e ∉ epcsOf captured)
                 ∧ check e taskId = Rejected reason)
  ∧ (∀ e reason,
        e ∈ mockNewEpcs item epcs → e ∉ epcsOf captured →
        check e taskId = Rejected reason →
        activeTab (final (handleScanResults item taskId check captured epcs st))
          = activeTab st
        ∧ scannedEPCs (final (handleScanResults item taskId check captured epcs st))
          = scannedEPCs st
        ∧ swipedInvalidEpc (final (handleScanResults item taskId check captured epcs st))
          = swipedInvalidEpc st
        ∧ popupInfo (final (handleScanResults item taskId check captured epcs st))
          = popupInfo st).
Proof.
  intros Hne. split.
  - split.
    + intros Hbusy.
      destruct (settled (handleScanResults item taskId check captured epcs st))
        as [added|reason] eqn:E.
      * apply handleScanResults_resolved in E as (_ & _ & Hl).
        destruct (Hl Hne) as [_ Hidle]. congruence.
      * apply handleScanResults_rejected in E as (_ & e & Hlast & E).
        apply last_Some_elem_of, lookup_is_due in Hlast as [Hin Hnew].
        by exists e, reason.
    + intros (e & reason & He & Hnew & E).
      destruct (handleScanResults_fails item taskId check captured epcs st e reason
                  Hne He Hnew E) as (pre & e' & reason' & -> & _).
      done.
  - intros e reason He Hnew E.
    destruct (handleScanResults_fails item taskId check captured epcs st e reason
                Hne He Hnew E) as (pre & e' & reason' & -> & _).
    done.
Qed.

Lemma spinner_stays_iff_lookup_failed_witness :
  isProcessing (final (handleScanResults Demo.item Demo.taskId Demo.registry
                         (scannedEPCs Demo.afterA) ["C"; "DOWN"; "X"]
                         Demo.afterA)) = true.
Proof.
  apply (spinner_stays_iff_lookup_failed Demo.item Demo.taskId Demo.registry
           (scannedEPCs Demo.afterA) ["C"; "DOWN"; "X"] Demo.afterA).
  - done.
  - exists "DOWN", "network error". split; [by_computation|].
    split; [by_computation|reflexivity].
Defined.



(** X4: every EPC a scan sends to the registry is one of the batch, of the
    first two expected EPCs or of the three fixed ones, and is not among
    the records the handler captured; a scan issues at most five lookups
    more than the batch has EPCs. *)
Theorem lookups_come_from_the_batch item taskId check captured epcs st :
  (∀ e, e ∈ lookups (handleScanResults item taskId check captured epcs st) →
        (e ∈ epcs ∨ e ∈ take 2 (expectedEpcs item)
         ∨ e ∈ ["EPC-E5-001"; "EPC-A1-001"; "UNKNOWN-EPC-123"])
        ∧ e ∉ epcsOf captured)
  ∧ (length (lookups (handleScanResults item taskId check captured epcs st))
     ≤ length epcs + 5)%nat.
Proof.
  split.
  - intros e [Hin Hnew]%lookup_is_due. split; [|done].
    unfold mockNewEpcs in Hin. rewrite !elem_of_app in Hin. tauto.
  - destruct (handleScanResults_lookups item taskId check captured epcs st)
      as (pre & <- & [k Hk]).
    pose proof (length_spreadSetFrom (list_to_set (epcsOf captured))
                  (spreadSet (mockNewEpcs item epcs))) as H1.
    pose proof (length_spreadSetFrom ∅ (mockNewEpcs item epcs)) as H2.
    fold (spreadSet (mockNewEpcs item epcs)) in H2.
    rewrite Hk, length_app in H1.
    assert (length (mockNewEpcs item epcs) ≤ length epcs + 5)%nat as H3.
    { unfold mockNewEpcs. rewrite !length_app, length_take. cbn [length]. lia. }
    lia.
Qed.

(** X5: with a registry that answers about the EPC asked, a completed scan
    of a non-empty batch adds its records, after those of the session, in
    the order in which their EPCs first occur in the batch, then the first
    two expected EPCs, then the three fixed ones, the EPCs of the records
    the handler captured left out. *)
Theorem added_records_keep_scan_order item taskId check captured epcs st added :
  echoes check taskId →
  epcs ≠ [] →
  settled (handleScanResults item taskId check captured epcs st) = Resolved added →
  epcsOf added
  = filter (λ e, e ∉ epcsOf captured) (spreadSet (mockNewEpcs item epcs))
  ∧ scannedEPCs (final (handleScanResults item taskId check captured epcs st))
    = scannedEPCs st ++ added
  ∧ NoDup (spreadSet (mockNewEpcs item epcs))
  ∧ (∀ e, e ∈ spreadSet (mockNewEpcs item epcs) ↔ e ∈ mockNewEpcs item epcs).
Proof.
  intros Hecho Hne Hres.
  apply handleScanResults_resolved in Hres as (Hs & HF & Hl).
  destruct (Hl Hne) as [Hlook _].
  split; [|split; [done|split;
                   [apply NoDup_spreadSetFrom | intros e; apply elem_of_spreadSet]]].
  rewrite (looked_epcs _ _ _ _ _ Hecho HF), Hlook.
  rewrite spreadSetFrom_filter by apply NoDup_spreadSetFrom.
  apply filter_agree. intros e _. by rewrite elem_of_list_to_set.
Qed.

Lemma added_records_keep_scan_order_witness :
  epcsOf Demo.addedXC
  = filter (λ e, e ∉ epcsOf (scannedEPCs Demo.afterA))
           (spreadSet (mockNewEpcs Demo.item ["X"; "A"; "C"; "X"])).
Proof.
  apply (added_records_keep_scan_order Demo.item Demo.taskId Demo.registry
           (scannedEPCs Demo.afterA) ["X"; "A"; "C"; "X"] Demo.afterXC
           Demo.addedXC).
  - exact echoes_demo.
  - done.
  - vm_compute. reflexivity.
Defined.

(** X6: with a registry that answers about the EPC asked, after a completed
    scan of a non-empty batch every EPC of the batch, each of the first two
    expected EPCs and each of the three fixed EPCs has a record in the
    session, provided the EPCs of the records the handler captured are
    still in the session (as they are for the handler of the current
    render). *)
Theorem scanned_epcs_are_recorded item taskId check captured epcs st added e :
  echoes check taskId →
  (∀ x, x ∈ epcsOf captured → x ∈ epcsOf (scannedEPCs st)) →
  settled (handleScanResults item taskId check captured epcs st) = Resolved added →
  e ∈ mockNewEpcs item epcs →
  epcs ≠ [] →
  e ∈ epcsOf (scannedEPCs
                (final (handleScanResults item taskId check captured epcs st))).
Proof.
  intros Hecho Hstill Hres He Hne.
  apply handleScanResults_resolved in Hres as (-> & HF & Hl).
  destruct (Hl Hne) as [Hlook _].
  unfold epcsOf. rewrite fmap_app. apply elem_of_app.
  destruct (decide (e ∈ epcsOf captured)) as [Hold|Hnew];
    [left; by apply Hstill|].
  right. fold (epcsOf added). rewrite (looked_epcs _ _ _ _ _ Hecho HF), Hlook.
  by rewrite elem_of_spreadSetFrom, elem_of_spreadSet, elem_of_list_to_set.
Qed.

Lemma scanned_epcs_are_recorded_witness :
  "EPC-A1-001"
    ∈ epcsOf (scannedEPCs
                (final (handleScanResults Demo.item Demo.taskId Demo.registry
                          (scannedEPCs initialState) ["X"; "C"] initialState))).
Proof.
  apply (scanned_epcs_are_recorded Demo.item Demo.taskId Demo.registry
           (scannedEPCs initialState) ["X"; "C"] initialState
           (scannedEPCs (final (handleScanResults Demo.item Demo.taskId
                                  Demo.registry (scannedEPCs initialState)
                                  ["X"; "C"] initialState)))
           "EPC-A1-001").
  - exact echoes_demo.
  - by intros x Hx.
  - vm_compute. reflexivity.
  - by_computation.
  - done.
Defined.

(** X7: a scan, whether it completes or fails, keeps each bucket as it was and
    only adds at its end: the valid, surplus and error rows already shown
    stay in place, and no count goes down. *)
Theorem scan_extends_buckets item taskId check captured epcs st :
  validScans st
    `prefix_of` validScans (final (handleScanResults item taskId check captured epcs st))
  ∧ surplusScans st
      `prefix_of` surplusScans (final (handleScanResults item taskId check captured epcs st))
  ∧ errorScans st
      `prefix_of` errorScans (final (handleScanResults item taskId check captured epcs st))
  ∧ (confirmedCount st
     ≤ confirmedCount (final (handleScanResults item taskId check captured epcs st)))%nat.
Proof.
  destruct (handleScanResults_session item taskId check captured epcs st)
    as (added & Hs & _).
  unfold confirmedCount, validScans, surplusScans, errorScans.
  rewrite Hs, !filter_app, length_app.
  repeat split; try apply prefix_app_r; try done. lia.
Qed.

(** ** Deleting *)

Lemma filter_all {A} (P : A → Prop) `{∀ x, Decision (P x)} (l : list A) :
  (∀ x, x ∈ l → P x) → filter P l = l.
Proof.
  induction l as [|x l IH]; intros Hall; [done|].
  rewrite filter_cons_True by (apply Hall; left).
  f_equal. apply IH. intros y Hy. apply Hall. by right.
Qed.

Lemma delete_one_record (scans : list ScannedEpcUI) e :
  NoDup (epcsOf scans) → e ∈ epcsOf scans →
  length (filter (λ s : ScannedEpcUI, epc s ≠ e) scans) + 1 = length scans.
Proof.
  unfold epcsOf. induction scans as [|x scans IH]; intros Hnd He.
  - by apply elem_of_nil in He.
  - rewrite fmap_cons in Hnd, He. apply NoDup_cons in Hnd as [Hx Hnd].
    destruct (decide (epc x = e)) as [<-|Hne].
    + rewrite filter_cons_False by tauto.
      rewrite filter_all; [simpl; lia|].
      intros y Hy Heq. apply Hx. rewrite <- Heq.
      apply list_elem_of_fmap. by exists y.
    + rewrite filter_cons_True by done. simpl.
      apply elem_of_cons in He as [->|He]; [done|].
      specialize (IH Hnd He). lia.
Qed.

Lemma enabled_row st row e :
  row ∈ renderActiveList st → deleteEnabled row = Some e →
  activeTab st = tab_error
  ∧ swipedInvalidEpc st = Some e
  ∧ ∃ s : ScannedEpcUI,
      row = EpcListItem s true true ∧ s ∈ scannedEPCs st
      ∧ epc s = e ∧ uiStatus s = invalid_not_found.
Proof.
  intros Hrow Hen. unfold renderActiveList in Hrow.
  destruct (activeTab st); unfold EpcList in Hrow;
    apply list_elem_of_fmap in Hrow as (s & -> & Hs); simpl in Hen; [done|done|].
  unfold isSwiped in *. simpl in *.
  case_bool_decide as Hsw; [|done]. injection Hen as <-.
  split; [done|]. split; [done|].
  apply list_elem_of_filter in Hs as [Hnf Hs]. by exists s.
Qed.

(** X8: deleting an EPC twice is deleting it once, and two deletions give the
    same state in either order. *)
Theorem delete_idempotent_and_commutes e1 e2 st :
  handleDeleteInvalidScan e1 (handleDeleteInvalidScan e1 st)
    = handleDeleteInvalidScan e1 st
  ∧ handleDeleteInvalidScan e1 (handleDeleteInvalidScan e2 st)
    = handleDeleteInvalidScan e2 (handleDeleteInvalidScan e1 st).
Proof.
  unfold handleDeleteInvalidScan, setSwipedInvalidEpc, setScannedEPCs. simpl.
  split; f_equal; rewrite !list_filter_filter; apply list_filter_iff; tauto.
Qed.

(** X9: deleting an EPC that has no record keeps every record of the session;
    only the tapped row is reset. *)
Theorem delete_absent_epc e st :
  e ∉ epcsOf (scannedEPCs st) →
  handleDeleteInvalidScan e st = setSwipedInvalidEpc (λ _, None) st.
Proof.
  intros He. unfold handleDeleteInvalidScan, setSwipedInvalidEpc, setScannedEPCs.
  simpl. f_equal. apply filter_all. intros s Hs Heq. apply He.
  apply list_elem_of_fmap. by exists s.
Qed.

Lemma delete_absent_epc_witness :
  handleDeleteInvalidScan "C" Demo.tapped
  = setSwipedInvalidEpc (λ _, None) Demo.tapped.
Proof.
  apply (delete_absent_epc "C" Demo.tapped). by_computation.
Defined.

(** X10: in a session whose records have different EPCs, deleting the EPC of a
    record removes exactly that one record, and the EPC is gone from the
    session (so a later scan of it is treated as new). *)
Theorem delete_present_epc e st :
  NoDup (epcsOf (scannedEPCs st)) →
  e ∈ epcsOf (scannedEPCs st) →
  length (scannedEPCs (handleDeleteInvalidScan e st)) + 1 = length (scannedEPCs st)
  ∧ e ∉ epcsOf (scannedEPCs (handleDeleteInvalidScan e st)).
Proof.
  intros Hnd He. split; [by apply delete_one_record|].
  simpl. intros (s & Heq & Hs)%list_elem_of_fmap.
  apply list_elem_of_filter in Hs as [Hne _]. done.
Qed.

Lemma delete_present_epc_witness :
  length (scannedEPCs (handleDeleteInvalidScan "B" Demo.afterA)) + 1 = 5
  ∧ "B" ∉ epcsOf (scannedEPCs (handleDeleteInvalidScan "B" Demo.afterA)).
Proof.
  apply (delete_present_epc "B" Demo.afterA); by_computation.
Defined.

(** X11: in a session whose records have different EPCs, a deletion the screen
    offers (the enabled delete button of a row) removes one record of the
    error bucket and leaves the valid and surplus buckets, hence the count
    that is confirmed, as they were. *)
Theorem offered_delete_spares_valid_records st row e :
  NoDup (epcsOf (scannedEPCs st)) →
  row ∈ renderActiveList st →
  deleteEnabled row = Some e →
  validScans (handleDeleteInvalidScan e st) = validScans st
  ∧ surplusScans (handleDeleteInvalidScan e st) = surplusScans st
  ∧ length (errorScans (handleDeleteInvalidScan e st)) + 1 = length (errorScans st)
  ∧ confirmedCount (handleDeleteInvalidScan e st) = confirmedCount st.
Proof.
  intros Hnd Hrow Hen.
  destruct (enabled_row st row e Hrow Hen) as (_ & _ & s & _ & Hs & Hepc & Hnf).
  assert (∀ x : ScannedEpcUI,
            x ∈ scannedEPCs st → uiStatus x ≠ invalid_not_found → epc x ≠ e)
    as Hother.
  { intros x Hx Hstatus Heq. apply Hstatus.
    rewrite (unique_epc_record _ x s Hnd Hx Hs); [done|congruence]. }
  assert (validScans (handleDeleteInvalidScan e st) = validScans st) as Hvalid.
  { unfold validScans. simpl. rewrite list_filter_filter.
    apply filter_agree. intros x Hx. split; [tauto|]. intros Hv.
    split; [done|]. apply Hother; [done|congruence]. }
  split; [done|]. split; [|split; [|unfold confirmedCount; by rewrite Hvalid]].
  - unfold surplusScans. simpl. rewrite list_filter_filter.
    apply filter_agree. intros x Hx. split; [tauto|]. intros Hv.
    split; [done|]. apply Hother; [done|]. destruct Hv; congruence.
  - unfold errorScans. simpl.
    rewrite list_filter_filter.
    rewrite <- (delete_one_record
                  (filter (λ x : ScannedEpcUI, uiStatus x = invalid_not_found)
                          (scannedEPCs st)) e).
    + rewrite list_filter_filter. f_equal. f_equal.
      apply list_filter_iff. tauto.
    + eapply sublist_NoDup; [exact Hnd|]. unfold epcsOf.
      apply fmap_sublist, sublist_filter.
    + apply list_elem_of_fmap. exists s. split; [done|].
      by apply list_elem_of_filter.
Qed.

Lemma offered_delete_spares_valid_records_witness :
  confirmedCount (handleDeleteInvalidScan "UNKNOWN-EPC-123" Demo.tapped) = 2
  ∧ length (errorScans (handleDeleteInvalidScan "UNKNOWN-EPC-123" Demo.tapped)) = 0.
Proof.
  destruct (offered_delete_spares_valid_records Demo.tapped
              (EpcListItem Demo.unknownScan true true) "UNKNOWN-EPC-123")
    as (_ & _ & Herr & Hcount).
  - by_computation.
  - vm_compute. apply list_elem_of_here.
  - reflexivity.
  - split; [rewrite Hcount; vm_compute; reflexivity|].
    vm_compute. reflexivity.
Defined.

(** X12: in a session whose records have different EPCs at most one row has an
    enabled delete button: two rows of the active list with one are the same
    row, the tapped one. *)
Theorem one_delete_button_at_most st row1 row2 :
  NoDup (epcsOf (scannedEPCs st)) →
  row1 ∈ renderActiveList st → row2 ∈ renderActiveList st →
  is_Some (deleteEnabled row1) → is_Some (deleteEnabled row2) →
  row1 = row2 ∧ swipedInvalidEpc st = deleteEnabled row1.
Proof.
  intros Hnd H1 H2 [e1 E1] [e2 E2].
  destruct (enabled_row st row1 e1 H1 E1) as (_ & Hsw1 & s1 & -> & Hs1 & Hepc1 & _).
  destruct (enabled_row st row2 e2 H2 E2) as (_ & Hsw2 & s2 & -> & Hs2 & Hepc2 & _).
  split; [|by rewrite E1]. f_equal.
  apply (unique_epc_record _ s1 s2 Hnd Hs1 Hs2). congruence.
Qed.

Lemma one_delete_button_at_most_witness :
  swipedInvalidEpc Demo.tapped
  = deleteEnabled (EpcListItem Demo.unknownScan true true).
Proof.
  apply (one_delete_button_at_most Demo.tapped
           (EpcListItem Demo.unknownScan true true)
           (EpcListItem Demo.unknownScan true true)).
  - by_computation.
  - vm_compute. apply list_elem_of_here.
  - vm_compute. apply list_elem_of_here.
  - by eexists.
  - by eexists.
Defined.

(** X13: after a deletion no row of the active list has an enabled delete
    button, whatever the tab: a row has to be tapped again before the next
    deletion. *)
Theorem no_delete_button_after_delete e st row :
  row ∈ renderActiveList (handleDeleteInvalidScan e st) →
  deleteEnabled row = None.
Proof.
  intros Hrow.
  destruct (deleteEnabled row) as [e'|] eqn:E; [|done].
  by destruct (enabled_row _ row e' Hrow E) as (_ & Hsw & _).
Qed.

Lemma no_delete_button_after_delete_witness :
  EpcListItem Demo.unknownScan true false
    ∈ renderActiveList (handleDeleteInvalidScan "C" Demo.tapped)
  ∧ deleteEnabled (EpcListItem Demo.unknownScan true false) = None.
Proof.
  assert (EpcListItem Demo.unknownScan true false
            ∈ renderActiveList (handleDeleteInvalidScan "C" Demo.tapped)) as Hrow
    by (vm_compute; apply list_elem_of_here).
  split; [exact Hrow|].
  exact (no_delete_button_after_delete "C" Demo.tapped _ Hrow).
Defined.

(** ** Deleting, then scanning again *)

Lemma scanLoop_fresh item taskId check e l cur ns calls result :
  e ∉ cur → check e taskId = Resolved result →
  scanLoop item taskId check (e :: l) cur ns calls
  = scanLoop item taskId check l ({[e]} ∪ cur)
      (ns ++ [mkScannedUI result (uiStatusOf item result)]) (calls ++ [e]).
Proof. intros He E. simpl. by rewrite decide_False, E. Qed.

(** X14: when an EPC is deleted and then scanned again on its own, through
    the handler of the render after the deletion, with the other EPCs every
    scan adds already in the session, the registry is asked about that EPC
    only, and the record built from the new answer, with the status the
    registry gives now, is put at the end of the session. *)
Theorem rescan_after_delete item taskId check st e result :
  (∀ x, x ∈ mockNewEpcs item [e] → x = e ∨ x ∈ epcsOf (scannedEPCs st)) →
  check e taskId = Resolved result →
  lookups (handleScanResults item taskId check
             (scannedEPCs (handleDeleteInvalidScan e st)) [e]
             (handleDeleteInvalidScan e st))
    = [e]
  ∧ scannedEPCs
      (final (handleScanResults item taskId check
                (scannedEPCs (handleDeleteInvalidScan e st)) [e]
                (handleDeleteInvalidScan e st)))
    = filter (λ s : ScannedEpcUI, epc s ≠ e) (scannedEPCs st)
      ++ [mkScannedUI result (uiStatusOf item result)].
Proof.
  intros Hothers E.
  unfold handleScanResults. rewrite decide_False by done.
  unfold spreadSet, mockNewEpcs. simpl app.
  rewrite spreadSetFrom_fresh by apply not_elem_of_empty.
  rewrite (scanLoop_fresh _ _ _ _ _ _ _ _ result); [|
    rewrite elem_of_list_to_set; simpl;
    intros (s & Heq & Hs)%list_elem_of_fmap;
    by apply list_elem_of_filter in Hs as [Hne _] | done].
  rewrite scanLoop_all_seen.
  - simpl. split; [done|]. by repeat destruct (bool_decide _).
  - intros x Hx. apply elem_of_spreadSetFrom in Hx as [Hx Hne].
    rewrite elem_of_union, elem_of_singleton in Hne.
    apply elem_of_union. right. apply elem_of_list_to_set. simpl.
    destruct (Hothers x) as [->|Hin]; [unfold mockNewEpcs; by right|tauto|].
    apply list_elem_of_fmap in Hin as (s & -> & Hs).
    apply list_elem_of_fmap. exists s. split; [done|].
    apply list_elem_of_filter. split; [|done]. intros Heq. apply Hne. by left.
Qed.

Lemma rescan_after_delete_witness :
  scannedEPCs
    (final (handleScanResults Demo.item Demo.taskId Demo.laterRegistry
              (scannedEPCs (handleDeleteInvalidScan "UNKNOWN-EPC-123" Demo.afterA))
              ["UNKNOWN-EPC-123"]
              (handleDeleteInvalidScan "UNKNOWN-EPC-123" Demo.afterA)))
  = filter (λ s : ScannedEpcUI, epc s ≠ "UNKNOWN-EPC-123") (scannedEPCs Demo.afterA)
    ++ [mkScannedUI (mkScanned "UNKNOWN-EPC-123" status_valid (Some Demo.laptop))
                    valid].
Proof.
  apply (rescan_after_delete Demo.item Demo.taskId Demo.laterRegistry Demo.afterA
           "UNKNOWN-EPC-123"
           (mkScanned "UNKNOWN-EPC-123" status_valid (Some Demo.laptop))).
  - intros x Hx. right. revert x Hx. apply Forall_forall. by_computation.
  - reflexivity.
Defined.

(** ** Sequences of actions *)

Lemma unique_epcs_step item taskId a st :
  timely taskId a st →
  NoDup (epcsOf (scannedEPCs st)) →
  NoDup (epcsOf (scannedEPCs (step item taskId a st))).
Proof.
  destruct a as [check captured epcs|e|t|isInvalidList scan| |]; simpl; try done.
  - intros [Hecho Hknows]. by apply unique_epcs_append.
  - intros _. apply unique_epcs_delete.
  - by destruct isInvalidList.
Qed.

Lemma unique_epcs_run item taskId actions :
  ∀ st, allTimely item taskId actions st →
        NoDup (epcsOf (scannedEPCs st)) →
        NoDup (epcsOf (scannedEPCs (run item taskId actions st))).
Proof.
  unfold run. induction actions as [|a actions IH]; intros st Hall Hnd; [done|].
  destruct Hall as [Ha Hall]. simpl. apply IH; [done|].
  by apply unique_epcs_step.
Qed.

(** X15: along every sequence of actions from the initial screen in which
    each scan completion comes through a handler whose captured records
    hold every EPC of the session it meets (as those of the handler of the
    current render do) and meets a registry that answers about the EPC
    asked, the records of the session keep different EPCs. *)
Theorem unique_epcs_along_runs item taskId actions :
  allTimely item taskId actions initialState →
  NoDup (epcsOf (scannedEPCs (run item taskId actions initialState))).
Proof.
  intros Hall. apply unique_epcs_run; [done|constructor].
Qed.

Lemma echoes_later : echoes Demo.laterRegistry Demo.taskId.
Proof.
  intros e result. unfold Demo.laterRegistry. case_decide.
  - by intros [= <-].
  - apply echoes_demo.
Defined.

Lemma unique_epcs_along_runs_witness :
  NoDup (epcsOf (scannedEPCs (run Demo.item Demo.taskId Demo.visit initialState)))
  ∧ epcsOf (scannedEPCs (run Demo.item Demo.taskId Demo.visit initialState))
    = ["A"; "B"; "EPC-E5-001"; "EPC-A1-001"; "UNKNOWN-EPC-123"; "X"].
Proof.
  split; [|vm_compute; reflexivity].
  apply (unique_epcs_along_runs Demo.item Demo.taskId Demo.visit).
  simpl. repeat split; try exact echoes_demo; try exact echoes_later.
  - by intros e He.
  - apply (knowsSession_current Demo.deleted).
Defined.

(** ** What is shown *)

(** X16: the active list shows, in the order of the session, exactly the records
    of the bucket of the active tab, and the counter next to the list title
    is the number of its rows. *)
Theorem active_list_is_the_bucket st :
  rowScan <$> renderActiveList st
  = match activeTab st with
    | tab_valid => validScans st
    | tab_surplus => surplusScans st
    | tab_error => errorScans st
    end
  ∧ getTabCount (activeTab st) st = length (renderActiveList st).
Proof.
  unfold renderActiveList, getTabCount, EpcList.
  destruct (activeTab st); rewrite <- list_fmap_compose, length_fmap;
    (split; [|done]); apply list_fmap_id.
Qed.

(** X17: the rows of the valid tab show no status line, those of the error tab
    show the not-found message, those of the surplus tab show the surplus
    message or the wrong-asset message ending in a non-empty asset name or
    in Unknown; the duplicate message is shown in no state. *)
Theorem shown_status_lines st row :
  row ∈ renderActiveList st →
  match activeTab st with
  | tab_valid => rowMessage row = None
  | tab_error => rowMessage row = Some "EPC không tìm thấy trong hệ thống."
  | tab_surplus =>
      rowMessage row = Some "Tài sản thừa không có trong phiếu."
      ∨ ∃ name, name ≠ ""
                ∧ rowMessage row = Some (String.append "Tài sản sai. Đã quét: " name)
  end
  ∧ rowMessage row ≠ Some "Duplicate EPC in this session.".
Proof.
  intros Hrow. unfold renderActiveList, EpcList in Hrow.
  destruct (activeTab st);
    apply list_elem_of_fmap in Hrow as (s & -> & Hs);
    apply list_elem_of_filter in Hs as [Hstatus _]; simpl;
    unfold getStatusMessage.
  - done.
  - destruct Hstatus as [-> | ->]; (split; [|done]); [by left|right].
    exists (orElse (assetName <$> assetInfo s) "Unknown"). split; [|done].
    unfold orElse. destruct (assetName <$> assetInfo s) as [name|]; [|done].
    by case_decide.
  - by rewrite Hstatus.
Qed.

Lemma shown_status_lines_witness :
  rowMessage (SurplusEpcListItem
                (mkScannedUI (mkScanned "EPC-A1-001" status_valid (Some Demo.desk))
                             invalid_wrong_asset))
  ≠ Some "Duplicate EPC in this session.".
Proof.
  apply (shown_status_lines (setActiveTab tab_surplus Demo.afterA)
           (SurplusEpcListItem
              (mkScannedUI (mkScanned "EPC-A1-001" status_valid (Some Demo.desk))
                           invalid_wrong_asset))).
  vm_compute. apply list_elem_of_further, list_elem_of_here.
Defined.

(** X18: for a record of another asset the status line and the locate button
    disagree on a missing name: without [assetInfo] the line says Unknown
    and the asset finder gets Unknown Asset; with an [assetInfo] whose name
    is empty the line still says Unknown but the asset finder gets the empty
    name; with a non-empty name both use it. *)
Theorem missing_asset_name scan :
  uiStatus scan = invalid_wrong_asset →
  (assetInfo scan = None →
     getStatusMessage scan = "Tài sản sai. Đã quét: Unknown"
     ∧ locateParams scan = (epc scan, "Unknown Asset"))
  ∧ (∀ info, assetInfo scan = Some info →
       locateParams scan = (epc scan, assetName info)
       ∧ (assetName info = "" →
          getStatusMessage scan = "Tài sản sai. Đã quét: Unknown")
       ∧ (assetName info ≠ "" →
          getStatusMessage scan
          = String.append "Tài sản sai. Đã quét: " (assetName info))).
Proof.
  intros Hstatus. unfold getStatusMessage, locateParams. rewrite Hstatus.
  split.
  - by intros ->.
  - intros info ->. simpl. split; [done|].
    split; intros Hname; by rewrite ?decide_True, ?decide_False by done.
Qed.

Lemma missing_asset_name_witness :
  locateParams (mkScannedUI (mkScanned "X" status_valid None) invalid_wrong_asset)
  = ("X", "Unknown Asset")
  ∧ getStatusMessage
      (mkScannedUI (mkScanned "Y" status_valid (Some (mkAssetInfo "asset-9" "IT" "")))
                   invalid_wrong_asset)
    = "Tài sản sai. Đã quét: Unknown"
  ∧ locateParams
      (mkScannedUI (mkScanned "Y" status_valid (Some (mkAssetInfo "asset-9" "IT" "")))
                   invalid_wrong_asset)
    = ("Y", "").
Proof.
  destruct (missing_asset_name
              (mkScannedUI (mkScanned "X" status_valid None) invalid_wrong_asset)
              eq_refl) as [HX _].
  destruct (missing_asset_name
              (mkScannedUI
                 (mkScanned "Y" status_valid (Some (mkAssetInfo "asset-9" "IT" "")))
                 invalid_wrong_asset)
              eq_refl) as [_ HY].
  destruct (HX eq_refl) as [_ HXloc].
  destruct (HY _ eq_refl) as (HYloc & HYempty & _).
  split; [exact HXloc|]. split; [exact (HYempty eq_refl) | exact HYloc].
Defined.

(** ** The confirm popup *)

Lemma popup_consistent_step item taskId a st :
  (isVisible (popupInfo st) = true ↔ popupType (popupInfo st) = Some confirm_submit) →
  (isVisible (popupInfo (step item taskId a st)) = true
   ↔ popupType (popupInfo (step item taskId a st)) = Some confirm_submit).
Proof.
  intros Hst.
  destruct a as [check captured epcs|e|t|isInvalidList scan| |]; simpl; try done.
  - by destruct (handleScanResults_frame item taskId check captured epcs st)
      as [_ ->].
  - by destruct isInvalidList.
Qed.

(** X19: in every reachable state the popup is visible exactly when its type is
    the confirm popup, so a visible popup is always rendered; the count it
    confirms is the number of valid records of the session at that moment,
    passed with the task and the asset of the screen. *)
Theorem popup_is_the_confirm_popup item taskId st :
  reachable item taskId st →
  (isVisible (popupInfo st) = true ↔ popupType (popupInfo st) = Some confirm_submit)
  ∧ (is_Some (renderPopup item taskId st) ↔ isVisible (popupInfo st) = true)
  ∧ (∀ popup, renderPopup item taskId st = Some popup →
              confirmed popup = (taskId, item_assetId item, length (validScans st))).
Proof.
  intros Hreach.
  assert (isVisible (popupInfo st) = true
          ↔ popupType (popupInfo st) = Some confirm_submit) as Hinv.
  { induction Hreach as [|a st _ IH]; [done|]. by apply popup_consistent_step. }
  split; [done|]. unfold renderPopup.
  destruct (isVisible (popupInfo st)); simpl.
  - rewrite (proj1 Hinv eq_refl). split; [by split|].
    by intros popup [= <-].
  - split; [|done]. split; [by intros [? ?]|done].
Qed.

Lemma popup_is_the_confirm_popup_witness :
  ∃ popup,
    renderPopup Demo.item Demo.taskId (handleConfirm Demo.afterA) = Some popup
    ∧ confirmed popup = ("TASK-1", "asset-1", 2)
    ∧ message popup = "Bạn có chắc chắn muốn xác nhận 2 tài sản đã quét?".
Proof.
  assert (reachable Demo.item Demo.taskId (handleConfirm Demo.afterA)) as Hreach.
  { apply (reachable_step _ _ PressConfirm).
    apply (reachable_step _ _ (ScanComplete Demo.registry [] ["A"]) initialState).
    apply reachable_initial. }
  destruct (popup_is_the_confirm_popup _ _ _ Hreach) as (_ & [_ Hshown] & Hcount).
  destruct Hshown as [popup Hpopup]; [reflexivity|].
  exists popup. split; [done|]. split.
  - rewrite (Hcount popup Hpopup). vm_compute. reflexivity.
  - vm_compute in Hpopup. injection Hpopup as <-. reflexivity.
Defined.
